(** * NVLL.distribution.vmf_hypvae: the von Mises-Fisher latent layer

    A shallow embedding of [src/NVLL/distribution/vmf_hypvae.py] and the
    properties of it that the specification states.

    Conventions of the embedding.
    - A floating-point scalar is a real number: [+], [*], [/], [np.sqrt] and
      [np.log] are the exact operations [Rplus], [Rmult], [Rdiv], [sqrt] and
      [ln] of the Standard Library.  Rounding is not modelled.  [ln] and [/]
      are total in Rocq; the statements below carry the hypotheses under
      which the Python operations have an ordinary (finite) value.
    - Where a float does something no real number does, and a statement
      depends on it, the embedding follows the float: [np.log(0.0)] is -inf
      in the test of the rejection loop ([ge_np_log]), and the float32
      exponential inside [Softplus] underflows to 0.0 ([exp_underflow]).
      The candidate of the rejection loop is moreover evaluated in binary64
      ([Binary64.candidate64]) at the two ends of the Beta range, where its rounding
      decides whether the weight stays inside (-1, 1).
    - A 1-D tensor is a [list R]; a 2-D tensor is a record of its number of
      columns and its rows, so that [mu.size()] can be read off it.
    - Exceptions are values of [result]; the global NumPy generator is an
      explicit stream of draws threaded through the samplers; the outcome of
      a [torch.randn] call is a function from indices to reals.
    - [scipy.special.ive] and [scipy.special.loggamma] are external; the
      sections that need them take them as variables. *)

From Stdlib Require Import Reals Lra Lia List ZArith Bool PeanoNat.
From Stdlib Require PrimFloat.
Import ListNotations.
Open Scope R_scope.

(** ** Exceptions and results *)

Inductive exn : Type :=
| AssertionError   (* raised by an [assert] of this module *)
| RuntimeError     (* raised by torch: shapes that do not fit *)
| ValueError       (* raised by numpy / torch on an invalid argument *)
| IndexError.      (* raised by numpy: index out of bounds *)

(** [Spin] is the outcome of a [while True] loop that has consumed all the
    draws it was given without reaching its [return]. *)
Inductive result (A : Type) : Type :=
| Ok (a : A)
| Raise (e : exn)
| Spin.

Arguments Ok {A} a.
Arguments Raise {A} e.
Arguments Spin {A}.

Definition bind {A B : Type} (m : result A) (k : A -> result B) : result B :=
  match m with
  | Ok a => k a
  | Raise e => Raise e
  | Spin => Spin
  end.

Notation "x <- m ;; k" := (bind m (fun x => k))
  (at level 61, m at next level, right associativity).
Notation "' p <- m ;; k" := (bind m (fun x => match x with p => k end))
  (at level 61, p pattern, m at next level, right associativity).

(** ** Tensors *)

Module Tensor.

Definition vec := list R.

Fixpoint zip_with {A B C : Type} (f : A -> B -> C) (l : list A) (m : list B)
  : list C :=
  match l, m with
  | a :: l', b :: m' => f a b :: zip_with f l' m'
  | _, _ => []
  end.

(** [torch.sum] over the last axis. *)
Definition tsum (v : vec) : R := fold_right Rplus 0 v.

(** One entry of [torch.bmm] of a [1 x d] by a [d x 1] matrix. *)
Definition dot (a b : vec) : R := tsum (zip_with Rmult a b).

(** [torch.norm(_, p=2)] along the last axis. *)
Definition norm2 (v : vec) : R := sqrt (tsum (map (fun x => x * x) v)).

(** Broadcast of a row against one scalar. *)
Definition scale (v : vec) (s : R) : vec := map (fun x => x * s) v.
Definition divs (v : vec) (s : R) : vec := map (fun x => x / s) v.

(** Elementwise operations on rows of the same length. *)
Definition vadd : vec -> vec -> vec := zip_with Rplus.
Definition vsub : vec -> vec -> vec := zip_with Rminus.
Definition vmul : vec -> vec -> vec := zip_with Rmult.
Definition vdiv : vec -> vec -> vec := zip_with Rdiv.

(** A tensor with two axes: [size() = (length rows, ncols)]. *)
Record Tensor2 : Type := mkT2 { ncols : nat; rows : list vec }.

Definition batch_of (t : Tensor2) : nat := length (rows t).

(** Every row has the declared width. *)
Definition wf (t : Tensor2) : Prop :=
  Forall (fun r => length r = ncols t) (rows t).

(** [t / torch.norm(t, p=2, dim=1, keepdim=True)] *)
Definition normalize_rows (t : Tensor2) : Tensor2 :=
  mkT2 (ncols t) (map (fun r => divs r (norm2 r)) (rows t)).

(** [torch.ones(b, d)] and [torch.ones_like]. *)
Definition ones (b d : nat) : Tensor2 := mkT2 d (repeat (repeat 1 d) b).
Definition ones_like (t : Tensor2) : Tensor2 :=
  mkT2 (ncols t) (map (fun r => map (fun _ => 1) r) (rows t)).

(** The outcome of [torch.randn(b, d, 1)], read off the generator's
    output [noise i j] for example [i] and coordinate [j]. *)
Definition randn (noise : nat -> nat -> R) (b d : nat) : list vec :=
  map (fun i => map (fun j => noise i j) (seq 0 d)) (seq 0 b).

End Tensor.
Import Tensor.

(** Elementwise operation on two tensors of the same shape, and the
    operation of a [batch x 1] column against a [batch x d] tensor. *)
Definition t2_zip (f : R -> R -> R) (a b : Tensor2) : Tensor2 :=
  mkT2 (ncols a) (zip_with (zip_with f) (rows a) (rows b)).

Definition t2_map (f : R -> R) (a : Tensor2) : Tensor2 :=
  mkT2 (ncols a) (map (map f) (rows a)).

Definition col_bcast (f : R -> R -> R) (col : list R) (t : Tensor2) : Tensor2 :=
  mkT2 (ncols t) (zip_with (fun c r => map (f c) r) col (rows t)).

(** Broadcasting of two 1-D tensors: a tensor of one element is repeated
    along the other; otherwise the lengths have to agree, and the library
    raises its exception [e] when they do not: RuntimeError for an operation
    of torch, ValueError for a NumPy universal function such as
    [scipy.special.ive]. *)
Definition broadcast_exn (e : exn) (f : R -> R -> R) (a b : vec) : result vec :=
  match a, b with
  | [x], _ => Ok (map (f x) b)
  | _, [y] => Ok (map (fun x => f x y) a)
  | _, _ => if (length a =? length b)%nat then Ok (zip_with f a b)
            else Raise e
  end.

Abbreviation broadcast := (broadcast_exn RuntimeError).
Abbreviation np_broadcast := (broadcast_exn ValueError).

(** Modelled from the spec: [GVar] is imported from NVLL/util/util.py, which
    is not among the sources; the spec calls it "a tensor-wrapping helper that
    marks a tensor as participating in gradient tracking".  It does not change
    the values of the tensor. *)
Definition GVar {A : Type} (t : A) : A := t.

(** ** The NumPy generator *)

(** One round of the rejection loop reads [np.random.beta] and then
    [np.random.uniform] from the process-wide generator. *)
Record draw : Type := mkDraw { beta_z : R; unif_u : R }.

(** The values the two distributions range over. *)
Definition in_support (d : draw) : Prop :=
  0 < beta_z d < 1 /\ 0 < unif_u d < 1.


(** ** class BesselIve *)

Module BesselIve.
Section WithIve.

(** [scipy.special.ive nu x]. *)
Variable ive : R -> R -> R.

Record ctx : Type := mkCtx { saved_tensors : vec * vec }.

Definition forward (dim kappa : vec) : result (ctx * vec) :=
  let c := mkCtx (dim, kappa) in
  m <- np_broadcast ive dim kappa ;;
  let x := m in
  Ok (c, x).

(** [BesselIve.apply]: the output of [forward]. *)
Definition apply (dim kappa : vec) : result vec :=
  ' (_, x) <- forward dim kappa ;; Ok x.

Definition backward (c : ctx) (grad_output : vec)
  : result (option vec * vec) :=
  let '(dim, kappa) := saved_tensors c in
  let grad_input := grad_output in
  b_lo <- apply (map (fun d => d - 1) dim) kappa ;;
  b_hi <- apply dim kappa ;;
  dk <- broadcast Rplus dim kappa ;;
  t1 <- broadcast Rmult b_hi dk ;;
  t2 <- broadcast Rdiv t1 kappa ;;
  t3 <- broadcast Rminus b_lo t2 ;;
  grad <- broadcast Rmult grad_input t3 ;;
  Ok (None, grad).

End WithIve.
End BesselIve.

(** [bessel = BesselIve.apply] *)
Definition bessel := BesselIve.apply.

(** ** torch.nn.Linear and torch.nn.Softplus *)

Record Linear : Type := mkLinear
  { in_features : nat;
    out_features : nat;
    weight : list vec;      (* out_features rows of in_features entries *)
    bias : vec }.

Definition Linear_wf (l : Linear) : Prop :=
  length (weight l) = out_features l /\
  Forall (fun r => length r = in_features l) (weight l) /\
  length (bias l) = out_features l.

Definition Linear_forward (l : Linear) (x : Tensor2) : result Tensor2 :=
  if (ncols x =? in_features l)%nat
  then Ok (mkT2 (out_features l)
             (map (fun r => vadd (map (fun wj => dot r wj) (weight l)) (bias l))
                  (rows x)))
  else Raise RuntimeError.

(** [torch.nn.Softplus()] with its defaults [beta = 1], [threshold = 20],
    on a float32 tensor: above the threshold the input itself, otherwise
    [log1p(exp(x))].  In float32 the exponential underflows to 0.0 once it
    is not above 2^-150, half of the least positive number of the format,
    that is for x <= -150 log 2 (about -103.97); the result is then exactly
    0.0.  This one underflow is modelled; rounding is not. *)
Definition exp_underflow : R := - (150 * ln 2).

Definition Softplus (x : R) : R :=
  if Rgt_dec x 20 then x
  else if Rle_dec x exp_underflow then 0
  else ln (1 + exp x).

(** ** class VmfDiff *)

Record VmfDiff : Type := mkVmfDiff
  { hid_dim : nat;
    lat_dim : nat;
    func_mu : Linear;
    func_kappa : Linear }.

(** What [__init__] establishes: [Linear(hid_dim, lat_dim)] and
    [Linear(hid_dim, 1)]. *)
Definition VmfDiff_wf (self : VmfDiff) : Prop :=
  Linear_wf (func_mu self) /\ Linear_wf (func_kappa self) /\
  in_features (func_mu self) = hid_dim self /\
  out_features (func_mu self) = lat_dim self /\
  in_features (func_kappa self) = hid_dim self /\
  out_features (func_kappa self) = 1%nat.

(** The dictionary [ret_dict] with its four keys. *)
Record ret_dict : Type := mkRet
  { tup_kappa : Tensor2;
    tup_norm : Tensor2;
    tup_redundant_norm : Tensor2;
    tup_mu : Tensor2 }.

Definition estimate_param (self : VmfDiff) (latent_code : Tensor2)
  : result ret_dict :=
  k <- Linear_forward (func_kappa self) latent_code ;;
  let kappa := t2_map Softplus k in
  mu <- Linear_forward (func_mu self) latent_code ;;
  let norm := mkT2 1 (map (fun r => [norm2 r]) (rows mu)) in
  let mu_norm_sq_diff_from_one := t2_map (fun n => (n + -1) ^ 2) norm in
  let redundant_norm :=
    mkT2 1 (map (fun r => [tsum r]) (rows mu_norm_sq_diff_from_one)) in
  let mu' := normalize_rows mu in
  Ok (mkRet kappa (ones_like mu) redundant_norm mu').

(** [torch.tensor(rt_bag)]: a list of one-element tensors becomes a 1-D
    tensor; an entry with another number of elements cannot be converted. *)
Fixpoint tensor_of_bag (bag : list vec) : result vec :=
  match bag with
  | [] => Ok []
  | [x] :: rest => r <- tensor_of_bag rest ;; Ok (x :: r)
  | _ :: _ => Raise ValueError
  end.

Section WithSpecialFunctions.

(** [scipy.special.ive] and the real part of [scipy.special.loggamma]. *)
Variable ive : R -> R -> R.
Variable loggamma : R -> R.

(** The body of the loop of [compute_KLD] for the row [k = kappa[k_idx]];
    [d] is the one-element tensor [torch.tensor([d])]. *)
Definition KLD_combin (d : vec) (const : R) (k : vec) : result vec :=
  let d_half := map (fun x => x / 2) d in
  let d_half_m1 := map (fun x => x - 1) d_half in
  b_hi <- bessel ive d_half k ;;
  kb <- broadcast Rmult k b_hi ;;
  b_lo <- bessel ive d_half_m1 k ;;
  first <- broadcast Rdiv kb b_lo ;;
  t <- broadcast Rmult d_half_m1 (map ln k) ;;
  b_lo' <- bessel ive d_half_m1 k ;;
  second <- broadcast Rminus t (map ln b_lo') ;;
  fs <- broadcast Rplus first second ;;
  let combin := map (fun y => y + const) fs in
  Ok combin.

Fixpoint KLD_loop (d : vec) (const : R) (kappa : list vec) : result (list vec) :=
  match kappa with
  | [] => Ok []
  | k :: rest =>
      combin <- KLD_combin d const k ;;
      rt_bag <- KLD_loop d const rest ;;
      Ok (combin :: rt_bag)
  end.

Definition compute_KLD (self : VmfDiff) (tup : ret_dict) (batch_sz : nat)
  : result vec :=
  let kappa := tup_kappa tup in
  let d := INR (lat_dim self) in
  let const :=
    ln 3.1415926 * d / 2 + ln 2 - loggamma (d / 2)
    - (d / 2) * ln (2 * 3.1415926) in
  let d := [d] in
  rt_bag <- KLD_loop d const (rows kappa) ;;
  tensor_of_bag rt_bag.

End WithSpecialFunctions.

(** ** The samplers *)

(** The test [t >= np.log(u)].  [np.log(0.0)] is -inf, which every number
    is above; the logarithm of a negative number is nan, and a comparison
    with nan is false. *)
Definition ge_np_log (t u : R) : bool :=
  if Rlt_dec 0 u then (if Rge_dec t (ln u) then true else false)
  else if Rle_dec 0 u then true
  else false.

(** The [while True] loop of [_sample_weight], run on the draws [rng];
    [np.random.beta] refuses a parameter that is not positive.  The
    candidate [w] is the exact quotient; what binary64 makes of it at the
    ends of the Beta range is [Binary64.candidate64] below. *)
Fixpoint rejection_loop (kappa dim b x c : R) (rng : list draw) {struct rng}
  : result (R * list draw) :=
  if Rle_dec (dim / 2) 0 then Raise ValueError
  else
    match rng with
    | [] => Spin
    | d :: rng' =>
        let z := beta_z d in
        let w := (1 - (1 + b) * z) / (1 - (1 - b) * z) in
        let u := unif_u d in
        if ge_np_log (kappa * w + dim * ln (1 - x * w) - c) u
        then Ok (w, rng')
        else rejection_loop kappa dim b x c rng'
    end.

(** Lines 151 and 157 in the arithmetic of the code when the concentration
    is a Python float: every operation is the binary64 one, [dim] being the
    float of the integer [dim - 1]. *)
Module Binary64.
Import PrimFloat.

Definition wood_b64 (kappa dim : float) : float :=
  (dim / (sqrt (4 * (kappa * kappa) + dim * dim) + 2 * kappa))%float.

Definition candidate64 (b z : float) : float :=
  ((1 - (1 + b) * z) / (1 - (1 - b) * z))%float.

(** The binary64 number nearest to 1e-20, and the one just below -1. *)
Definition draw_1e_20 : float := 0x1.79ca10c924223p-67%float.
Definition below_minus_one : float := (- 0x1.0000000000002p+0)%float.

End Binary64.

Definition _sample_weight (kappa : R) (dim : Z) (rng : list draw)
  : result (R * list draw) :=
  let dim := IZR (dim - 1) in
  let b := dim / (sqrt (4 * kappa ^ 2 + dim ^ 2) + 2 * kappa) in
  let x := (1 - b) / (1 + b) in
  let c := kappa * x + dim * ln (1 - x ^ 2) in
  rejection_loop kappa dim b x c rng.

(** The loop [for b in range(batch_sz)] of [_sample_weight_batch]. *)
Fixpoint weight_loop (kappa : list R) (dim : Z) (bs : list nat)
  (rng : list draw) : result (list R * list draw) :=
  match bs with
  | [] => Ok ([], rng)
  | b :: bs' =>
      match nth_error kappa b with
      | None => Raise IndexError
      | Some k =>
          ' (w, rng1) <- _sample_weight k dim rng ;;
          ' (ws, rng2) <- weight_loop kappa dim bs' rng1 ;;
          Ok (w :: ws, rng2)
      end
  end.

Definition _sample_weight_batch (kappa : list R) (dim : Z) (batch_sz : nat)
  (rng : list draw) : result (list R * list draw) :=
  weight_loop kappa dim (seq 0 batch_sz) rng.

(** [v.squeeze() - proj_mu_v] for [v] of shape [(batch, dim, 1)] and
    [proj_mu_v] of shape [(batch, dim)].  [squeeze] drops every axis of size
    1: when [dim = 1] and [batch <> 1] what is left of [v] is one row of
    [batch] entries, which broadcasts against the [batch x 1] projection to a
    [batch x batch] tensor.  In every other case the difference is taken
    entry by entry. *)
Definition squeeze_sub (batch dim : nat) (v proj : list vec) : Tensor2 :=
  if ((dim =? 1) && negb (batch =? 1))%nat
  then mkT2 batch
         (map (fun p => map (fun vj => hd 0 vj - hd 0 p) v) proj)
  else mkT2 dim (zip_with vsub v proj).

Definition _sample_ortho_batch (mu : Tensor2) (dim : nat)
  (noise : nat -> nat -> R) : result Tensor2 :=
  let _batch_sz := batch_of mu in
  let _lat_dim := ncols mu in
  if negb (_lat_dim =? dim)%nat then Raise AssertionError
  else
    let v := GVar (randn noise _batch_sz dim) in
    let rescale_val := zip_with dot (rows mu) v in
    let proj_mu_v := zip_with scale (rows mu) rescale_val in
    let ortho := squeeze_sub _batch_sz dim v proj_mu_v in
    let y := mkT2 (ncols ortho) (map (fun o => divs o (norm2 o)) (rows ortho)) in
    Ok y.

(** [kappa] is the NumPy array of shape [(batch, 1)], given by its column;
    [rng] is the state of the NumPy generator and [noise] the outcome of the
    one [torch.randn] call.  The result carries the new leading axis of
    [unsqueeze(0)] as a list of one element. *)
Definition sample_cell (mu norm : Tensor2) (kappa : list R)
  (rng : list draw) (noise : nat -> nat -> R)
  : result (list Tensor2 * list draw) :=
  let batch_sz := batch_of mu in
  let lat_dim := ncols mu in
  let mu := normalize_rows mu in
  ' (w, rng') <- _sample_weight_batch kappa (Z.of_nat lat_dim) batch_sz rng ;;
  let w_var := GVar (col_bcast Rmult w (ones batch_sz lat_dim)) in
  v <- _sample_ortho_batch mu lat_dim noise ;;
  let scale_factr :=
    t2_map sqrt (t2_zip Rminus (GVar (ones batch_sz lat_dim))
                               (t2_map (fun y => y ^ 2) w_var)) in
  let orth_term := t2_zip Rmult v scale_factr in
  let muscale := t2_zip Rmult mu w_var in
  let sampled_vec := t2_zip Rplus orth_term muscale in
  Ok ([sampled_vec], rng').

(** The loop [for n in range(n_sample)] of [build_bow_rep]; the [n]-th call
    of [sample_cell] sees the [torch.randn] outcome [noises n]. *)
Fixpoint sample_loop (mu norm : Tensor2) (kappa : list R) (ns : list nat)
  (rng : list draw) (noises : nat -> nat -> nat -> R)
  : result (list (list Tensor2) * list draw) :=
  match ns with
  | [] => Ok ([], rng)
  | n :: ns' =>
      ' (sample, rng1) <- sample_cell mu norm kappa rng (noises n) ;;
      ' (vecs, rng2) <- sample_loop mu norm kappa ns' rng1 noises ;;
      Ok (sample :: vecs, rng2)
  end.

Section BuildBowRep.

Variable ive : R -> R -> R.
Variable loggamma : R -> R.

(** [kappa.detach().cpu().numpy()] is the [batch x 1] array of the
    concentrations, handed on by its column; [torch.cat] refuses an empty
    list of tensors. *)
Definition build_bow_rep (self : VmfDiff) (lat_code : Tensor2) (n_sample : Z)
  (rng : list draw) (noises : nat -> nat -> nat -> R)
  : result (ret_dict * vec * list Tensor2 * list draw) :=
  let batch_sz := batch_of lat_code in
  tup <- estimate_param self lat_code ;;
  let mu := tup_mu tup in
  let norm := tup_norm tup in
  let kappa := tup_kappa tup in
  kld <- compute_KLD ive loggamma self tup batch_sz ;;
  let kappa := map (fun r => hd 0 r) (rows kappa) in
  if (n_sample =? 1)%Z
  then
    ' (sample, rng') <- sample_cell mu norm kappa rng (noises 0%nat) ;;
    Ok (tup, kld, sample, rng')
  else
    ' (vecs, rng') <-
      sample_loop mu norm kappa (seq 0 (Z.to_nat n_sample)) rng noises ;;
    match vecs with
    | [] => Raise RuntimeError
    | _ => Ok (tup, kld, concat vecs, rng')
    end.

End BuildBowRep.

(** [_sample_orthonormal_to]: the one-vector variant.  [mu] is a 1-D tensor
    and [noise] the outcome of [torch.randn(dim)]; [mu.dot(v)] wants the two
    of the same size.  The component along [mu] is divided by the norm of
    [mu] once. *)
Definition _sample_orthonormal_to (mu : vec) (dim : nat) (noise : nat -> R)
  : result vec :=
  let v := GVar (map noise (seq 0 dim)) in
  if negb (length mu =? length v)%nat then Raise RuntimeError
  else
    let rescale_value := dot mu v / norm2 mu in
    let proj_mu_v := vmul mu (repeat rescale_value dim) in
    let ortho := vsub v proj_mu_v in
    let ortho_norm := norm2 ortho in
    Ok (vdiv ortho (repeat ortho_norm (length ortho))).

(** ** Vocabulary of the statements *)

(** The quantities of Wood's algorithm as the specification writes them, for
    a concentration [kappa] and [dim' = dim - 1]. *)
Definition wood_b (kappa dim' : R) : R :=
  dim' / (sqrt (4 * kappa ^ 2 + dim' ^ 2) + 2 * kappa).

Definition wood_x (kappa dim' : R) : R :=
  (1 - wood_b kappa dim') / (1 + wood_b kappa dim').

Definition wood_c (kappa dim' : R) : R :=
  kappa * wood_x kappa dim' + dim' * ln (1 - wood_x kappa dim' ^ 2).

(** The candidate weight proposed from a Beta draw [z]. *)
Definition candidate (b z : R) : R := (1 - (1 + b) * z) / (1 - (1 - b) * z).

(** The acceptance condition for the round that drew [d]. *)
Definition accepted (kappa dim' : R) (d : draw) : Prop :=
  let w := candidate (wood_b kappa dim') (beta_z d) in
  kappa * w + dim' * ln (1 - wood_x kappa dim' * w) - wood_c kappa dim'
  >= ln (unif_u d).

(** The test as the code applies it to the round that drew [d]: a uniform
    draw of exactly 0 passes whatever the candidate is. *)
Definition passes (kappa dim' : R) (d : draw) : Prop :=
  unif_u d = 0 \/ (0 < unif_u d /\ accepted kappa dim' d).

(** The standard-normal vector drawn for example [i], and what is left of a
    vector [v] once its component along [m] is projected out. *)
Definition noise_row (noise : nat -> nat -> R) (dim i : nat) : vec :=
  map (fun j => noise i j) (seq 0 dim).

Definition residual (m v : vec) : vec := vsub v (scale m (dot m v)).

(** The combination [v * sqrt(1 - w^2) + mu * w] of one example. *)
Definition combine (v m : vec) (w : R) : vec :=
  vadd (scale v (sqrt (1 - w ^ 2))) (scale m w).

(** Two 1-D tensors that broadcast against each other, the length of the
    result, and the entry of a tensor that position [i] of the result reads. *)
Definition compat (a b : vec) : Prop :=
  length a = 1%nat \/ length b = 1%nat \/ length a = length b.

Definition blen (a b : vec) : nat :=
  if (length a =? 1)%nat then length b else length a.

Definition bget (a : vec) (i : nat) : R :=
  match a with
  | [x] => x
  | _ => nth i a 0
  end.

(** The three terms of the KL divergence as the specification writes them,
    for the latent dimensionality [d] and one concentration [k]. *)
Definition KL_first (ive : R -> R -> R) (d k : R) : R :=
  k * ive (d / 2) k / ive (d / 2 - 1) k.

Definition KL_second (ive : R -> R -> R) (d k : R) : R :=
  (d / 2 - 1) * ln k - ln (ive (d / 2 - 1) k).

Definition KL_const (loggamma : R -> R) (d : R) : R :=
  ln PI * d / 2 + ln 2 - loggamma (d / 2) - (d / 2) * ln (2 * PI).

(** ** A worked example *)

(** One example on the circle: mean direction (1, 0), concentration 1, a
    normal draw (0, 1) and one round (z, u) = (1/2, 1/2) of the generator. *)
Definition demo_mu : Tensor2 := mkT2 2 [[1; 0]].
Definition demo_noise : nat -> nat -> R :=
  fun _ j => if (j =? 1)%nat then 1 else 0.
Definition demo_rng : list draw := [mkDraw (1 / 2) (1 / 2)].
Definition demo_w : R := candidate (wood_b 1 (IZR (2 - 1))) (1 / 2).
Definition demo_v : Tensor2 :=
  mkT2 2
    [divs (residual (divs [1; 0] (norm2 [1; 0])) (noise_row demo_noise 2 0))
       (norm2 (residual (divs [1; 0] (norm2 [1; 0]))
                 (noise_row demo_noise 2 0)))].

(** A layer with one hidden unit and two latent coordinates, and the
    parameters it estimates for the hidden vector (1). *)
Definition demo_layer : VmfDiff :=
  mkVmfDiff 1 2 (mkLinear 1 2 [[1]; [0]] [0; 0]) (mkLinear 1 1 [[1]] [0]).
Definition demo_code : Tensor2 := mkT2 1 [[1]].
Definition demo_proj : Tensor2 :=
  mkT2 2 [vadd (map (fun wj => dot [1] wj) [[1]; [0]]) [0; 0]].
Definition demo_tup : ret_dict :=
  mkRet (mkT2 1 [[1]]) (ones 1 2) (mkT2 1 [[0]]) demo_mu.

(** * Properties *)

(** ** Algebra of rows *)

Section RowAlgebra.

Lemma zip_with_length {A B C : Type} (f : A -> B -> C) (l : list A) (m : list B) :
  length l = length m -> length (zip_with f l m) = length l.
Proof.
  revert m; induction l as [|a l IH]; intros [|b m] H; simpl in *;
    try discriminate; auto.
Qed.

Lemma zip_with_nth_error {A B C : Type} (f : A -> B -> C) l m i a b :
  nth_error l i = Some a -> nth_error m i = Some b ->
  nth_error (zip_with f l m) i = Some (f a b).
Proof.
  revert m i; induction l as [|a' l IH]; intros [|b' m] [|i] Ha Hb;
    simpl in *; try discriminate.
  - congruence.
  - eauto.
Qed.

Lemma zip_with_repeat_r (f : R -> R -> R) (v : vec) (s : R) (n : nat) :
  length v = n -> zip_with f v (repeat s n) = map (fun x => f x s) v.
Proof.
  revert n; induction v as [|a v IH]; intros [|n] H; simpl in *;
    try discriminate; auto.
  f_equal. apply IH. lia.
Qed.

Lemma tsum_sq_nonneg (v : vec) : 0 <= tsum (map (fun x => x * x) v).
Proof.
  induction v as [|a v IH]; simpl; [lra|]. nra.
Qed.

Lemma tsum_sq_dot (v : vec) : tsum (map (fun x => x * x) v) = dot v v.
Proof.
  unfold dot. induction v as [|a v IH]; simpl; [reflexivity|].
  now rewrite IH.
Qed.

Lemma norm2_nonneg (v : vec) : 0 <= norm2 v.
Proof. apply sqrt_pos. Qed.

Lemma norm2_sq (v : vec) : norm2 v * norm2 v = dot v v.
Proof.
  unfold norm2. rewrite sqrt_sqrt by apply tsum_sq_nonneg.
  apply tsum_sq_dot.
Qed.

Lemma norm2_of_dot (v : vec) : norm2 v = sqrt (dot v v).
Proof. unfold norm2. now rewrite tsum_sq_dot. Qed.

Lemma dot_comm (a b : vec) : dot a b = dot b a.
Proof.
  unfold dot. revert b; induction a as [|x a IH]; intros [|y b]; simpl;
    try reflexivity.
  rewrite IH. ring.
Qed.

Lemma dot_scale_l (a b : vec) (s : R) : dot (scale a s) b = s * dot a b.
Proof.
  unfold dot, scale. revert b; induction a as [|x a IH]; intros [|y b];
    simpl; try ring.
  rewrite IH. ring.
Qed.

Lemma dot_divs_l (a b : vec) (s : R) : dot (divs a s) b = dot a b / s.
Proof.
  unfold dot, divs. revert b; induction a as [|x a IH]; intros [|y b];
    simpl; try (unfold Rdiv; ring).
  rewrite IH. unfold Rdiv. ring.
Qed.

Lemma dot_vsub_l (a b c : vec) :
  length a = length b -> length b = length c ->
  dot (vsub a b) c = dot a c - dot b c.
Proof.
  unfold dot, vsub. revert b c; induction a as [|x a IH];
    intros [|y b] [|z c] H1 H2; simpl in *; try discriminate; try ring.
  rewrite IH by lia. ring.
Qed.


Lemma scale_length (v : vec) s : length (scale v s) = length v.
Proof. apply length_map. Qed.

Lemma divs_length (v : vec) s : length (divs v s) = length v.
Proof. apply length_map. Qed.

Lemma vsub_length (a b : vec) :
  length a = length b -> length (vsub a b) = length a.
Proof. apply zip_with_length. Qed.

Lemma vadd_length (a b : vec) :
  length a = length b -> length (vadd a b) = length a.
Proof. apply zip_with_length. Qed.

(** Dividing a row by its own nonzero norm gives a row of norm 1. *)
Lemma norm2_divs_self (v : vec) : norm2 v <> 0 -> norm2 (divs v (norm2 v)) = 1.
Proof.
  intros Hn.
  assert (Hpos : 0 < norm2 v) by (pose proof (norm2_nonneg v); lra).
  rewrite norm2_of_dot, dot_divs_l, dot_comm, dot_divs_l, <- norm2_sq.
  replace (norm2 v * norm2 v / norm2 v / norm2 v) with 1 by (field; lra).
  apply sqrt_1.
Qed.

(** A row of norm 1 is left unchanged by the normalisation. *)
Lemma divs_unit (v : vec) : norm2 v = 1 -> divs v (norm2 v) = v.
Proof.
  intros H. rewrite H. unfold divs.
  rewrite <- (map_id v) at 2. apply map_ext. intros x. field.
Qed.

Lemma unit_dot_self (v : vec) : norm2 v = 1 -> dot v v = 1.
Proof. intros H. rewrite <- norm2_sq, H. ring. Qed.

End RowAlgebra.

(** ** The tangential weight: Wood's rejection sampler *)

Section Wood.

Lemma wood_b_bounds (kappa dim' : R) :
  0 < kappa -> 1 <= dim' -> 0 < wood_b kappa dim' < 1.
Proof.
  intros Hk Hd. unfold wood_b.
  assert (Hs : dim' < sqrt (4 * kappa ^ 2 + dim' ^ 2)).
  { rewrite <- (sqrt_pow2 dim') at 1 by lra.
    apply sqrt_lt_1_alt. nra. }
  set (D := sqrt (4 * kappa ^ 2 + dim' ^ 2) + 2 * kappa) in *.
  assert (HD : dim' < D) by (unfold D; lra).
  split.
  - apply Rdiv_lt_0_compat; lra.
  - apply Rmult_lt_reg_r with D; [lra|].
    unfold Rdiv. rewrite Rmult_assoc, Rinv_l by lra. lra.
Qed.

(** With a concentration that may be 0, b may reach 1. *)
Lemma wood_b_bounds_nonneg (kappa dim' : R) :
  0 <= kappa -> 1 <= dim' -> 0 < wood_b kappa dim' <= 1.
Proof.
  intros Hk Hd. unfold wood_b.
  assert (Hs : dim' <= sqrt (4 * kappa ^ 2 + dim' ^ 2)).
  { rewrite <- (sqrt_pow2 dim') at 1 by lra.
    apply sqrt_le_1_alt. nra. }
  set (D := sqrt (4 * kappa ^ 2 + dim' ^ 2) + 2 * kappa) in *.
  assert (HD : dim' <= D) by (unfold D; lra).
  split.
  - apply Rdiv_lt_0_compat; lra.
  - apply Rmult_le_reg_r with D; [lra|].
    unfold Rdiv. rewrite Rmult_assoc, Rinv_l by lra. lra.
Qed.

Lemma wood_x_bounds (kappa dim' : R) :
  0 < kappa -> 1 <= dim' -> 0 < wood_x kappa dim' < 1.
Proof.
  intros Hk Hd. destruct (wood_b_bounds _ _ Hk Hd) as [Hb0 Hb1].
  unfold wood_x. set (b := wood_b kappa dim') in *.
  assert (Hx : (1 - b) / (1 + b) * (1 + b) = 1 - b) by (field; lra).
  split.
  - apply Rdiv_lt_0_compat; lra.
  - apply Rmult_lt_reg_r with (1 + b); [lra|]. rewrite Hx. lra.
Qed.

Lemma candidate_den_pos (b z : R) :
  0 < b < 1 -> 0 < z < 1 -> 0 < 1 - (1 - b) * z.
Proof. intros Hb Hz. nra. Qed.

(** A proposal from a draw inside (0, 1) lies strictly between -1 and 1. *)
Lemma candidate_bounds (b z : R) :
  0 < b < 1 -> 0 < z < 1 -> -1 < candidate b z < 1.
Proof.
  intros Hb Hz. pose proof (candidate_den_pos _ _ Hb Hz) as Hden.
  unfold candidate. set (den := 1 - (1 - b) * z) in *.
  assert (Hw : (1 - (1 + b) * z) / den * den = 1 - (1 + b) * z)
    by (field; lra).
  split.
  - apply Rmult_lt_reg_r with den; [lra|]. rewrite Hw. unfold den. nra.
  - apply Rmult_lt_reg_r with den; [lra|]. rewrite Hw. unfold den. nra.
Qed.


Lemma candidate_at_1 (b : R) : b <> 0 -> candidate b 1 = -1.
Proof. intros Hb. unfold candidate. field. lra. Qed.

(** The draw z = 1/2 proposes w = x. *)
Lemma candidate_half (b : R) : 0 < b -> candidate b (1 / 2) = (1 - b) / (1 + b).
Proof. intros Hb. unfold candidate. field. lra. Qed.

(** ... and that proposal is accepted whatever the uniform draw in (0, 1). *)
Lemma accepted_half (kappa dim' u : R) :
  0 <= kappa -> 1 <= dim' -> 0 < u < 1 ->
  accepted kappa dim' (mkDraw (1 / 2) u).
Proof.
  intros Hk Hd Hu. destruct (wood_b_bounds_nonneg _ _ Hk Hd) as [Hb0 Hb1].
  unfold accepted; cbn [beta_z unif_u].
  rewrite candidate_half by assumption.
  fold (wood_x kappa dim'). unfold wood_c.
  replace (wood_x kappa dim' * wood_x kappa dim') with (wood_x kappa dim' ^ 2)
    by ring.
  assert (Hln : ln u < 0).
  { rewrite <- ln_1. apply ln_increasing; lra. }
  lra.
Qed.

(** The loop of [_sample_weight] is the loop over the specification's
    quantities. *)
Lemma _sample_weight_unfold (kappa : R) (dim : Z) (rng : list draw) :
  _sample_weight kappa dim rng =
  rejection_loop kappa (IZR (dim - 1)) (wood_b kappa (IZR (dim - 1)))
    (wood_x kappa (IZR (dim - 1))) (wood_c kappa (IZR (dim - 1))) rng.
Proof. reflexivity. Qed.

Lemma ge_np_log_passes (kappa dim' : R) (d : draw) :
  ge_np_log
    (kappa * candidate (wood_b kappa dim') (beta_z d)
     + dim' * ln (1 - wood_x kappa dim' * candidate (wood_b kappa dim') (beta_z d))
     - wood_c kappa dim') (unif_u d) = true
  <-> passes kappa dim' d.
Proof.
  unfold ge_np_log, passes, accepted.
  destruct (Rlt_dec 0 (unif_u d)) as [Hu|Hu].
  - destruct (Rge_dec _ _) as [Hge|Hge]; split; intros H;
      try reflexivity; try discriminate.
    + right. split; assumption.
    + destruct H as [H | [_ H]]; [lra | contradiction].
  - destruct (Rle_dec 0 (unif_u d)) as [Hu0|Hu0]; split; intros H;
      try reflexivity; try discriminate.
    + left. lra.
    + destruct H as [H | [H _]]; lra.
Qed.

(** On a uniform draw above 0 the test is the inequality itself. *)
Lemma passes_accepted (kappa dim' : R) (d : draw) :
  0 < unif_u d -> (passes kappa dim' d <-> accepted kappa dim' d).
Proof.
  intros Hu. unfold passes. split.
  - intros [H | [_ H]]; [lra | exact H].
  - intros H. right. split; assumption.
Qed.

Lemma rejection_loop_first (kappa dim' : R) (rng : list draw) w rng' :
  0 < dim' ->
  rejection_loop kappa dim' (wood_b kappa dim') (wood_x kappa dim')
    (wood_c kappa dim') rng = Ok (w, rng') <->
  exists pre d,
    rng = pre ++ d :: rng' /\
    Forall (fun e => ~ passes kappa dim' e) pre /\
    passes kappa dim' d /\
    w = candidate (wood_b kappa dim') (beta_z d).
Proof.
  intros Hd.
  assert (Hbeta : ~ dim' / 2 <= 0) by lra.
  induction rng as [|e rng IH]; simpl.
  - destruct (Rle_dec (dim' / 2) 0); [contradiction|].
    split; [discriminate|].
    intros (pre & d & H & _). destruct pre; discriminate.
  - destruct (Rle_dec (dim' / 2) 0); [contradiction|].
    fold (candidate (wood_b kappa dim') (beta_z e)).
    pose proof (ge_np_log_passes kappa dim' e) as Hp.
    destruct (ge_np_log _ _).
    + assert (Hacc : passes kappa dim' e) by now apply Hp.
      split.
      * intros H; injection H as <- <-.
        exists [], e. repeat split; auto.
      * intros (pre & d & Heq & Hpre & Hd' & Hw).
        destruct pre as [|p pre]; simpl in Heq; injection Heq as -> ->.
        -- now subst w.
        -- inversion Hpre; subst. exfalso. apply H1. exact Hacc.
    + assert (Hrej : ~ passes kappa dim' e).
      { intros H. apply Hp in H. discriminate. }
      rewrite IH. split.
      * intros (pre & d & Heq & Hpre & Hd' & Hw).
        exists (e :: pre), d. subst rng. repeat split; auto.
      * intros (pre & d & Heq & Hpre & Hd' & Hw).
        destruct pre as [|p pre]; simpl in Heq; injection Heq as -> ->.
        -- exfalso. apply Hrej. exact Hd'.
        -- inversion Hpre; subst. exists pre, d. repeat split; auto.
Qed.

End Wood.

Lemma support_split (pre : list draw) (d : draw) (post : list draw) :
  Forall in_support (pre ++ d :: post) ->
  Forall (fun e => 0 < unif_u e) pre /\ 0 < unif_u d.
Proof.
  intros H. apply Forall_app in H. destruct H as [Hpre Hd].
  split.
  - eapply Forall_impl; [|exact Hpre]. intros e [_ [He _]]. exact He.
  - inversion Hd as [|? ? [_ [Hu _]] _]. exact Hu.
Qed.

Lemma rejected_on_support (kappa dim' : R) (pre : list draw) :
  Forall (fun e => 0 < unif_u e) pre ->
  (Forall (fun e => ~ passes kappa dim' e) pre <->
   Forall (fun e => ~ accepted kappa dim' e) pre).
Proof.
  induction 1 as [|e pre He _ IH].
  - split; constructor.
  - pose proof (passes_accepted kappa dim' e He) as Hpa.
    split; intros H; inversion H; subst; constructor;
      try (now apply IH); tauto.
Qed.

Lemma IZR_pred_ge_1 (dim : Z) : (2 <= dim)%Z -> 1 <= IZR (dim - 1).
Proof. intros H. apply IZR_le. lia. Qed.

(** C3.  For kappa > 0 and dim >= 2, with dim' = dim - 1,
    b = dim' / (sqrt(4 kappa^2 + dim'^2) + 2 kappa), x = (1 - b)/(1 + b) and
    c = kappa x + dim' log(1 - x^2), [_sample_weight] returns w exactly when
    w is the candidate (1 - (1+b) z) / (1 - (1-b) z) of the first round
    (z, u) of the stream whose acceptance condition
    kappa w + dim' log(1 - x w) - c >= log(u) holds; every earlier round was
    rejected, the returned weight satisfies the inequality for its own draw,
    and the generator is left just after that round. *)
Theorem sample_weight_returns_first_accepted
  (kappa : R) (dim : Z) (rng : list draw) (w : R) (rng' : list draw) :
  0 < kappa -> (2 <= dim)%Z -> Forall in_support rng ->
  _sample_weight kappa dim rng = Ok (w, rng') <->
  exists (pre : list draw) (d : draw),
    rng = pre ++ d :: rng' /\
    Forall (fun e => ~ accepted kappa (IZR (dim - 1)) e) pre /\
    accepted kappa (IZR (dim - 1)) d /\
    w = candidate (wood_b kappa (IZR (dim - 1))) (beta_z d).
Proof.
  intros Hk Hdim Hsup. rewrite _sample_weight_unfold.
  pose proof (IZR_pred_ge_1 _ Hdim) as Hd.
  rewrite rejection_loop_first by lra.
  split; intros (pre & d & Heq & Hpre & Hacc & Hw); exists pre, d;
    subst rng; destruct (support_split _ _ _ Hsup) as [Hpre_u Hd_u].
  - split; [reflexivity|]. split; [|split; [|exact Hw]].
    + now apply (rejected_on_support kappa (IZR (dim - 1)) pre Hpre_u).
    + now apply passes_accepted.
  - split; [reflexivity|]. split; [|split; [|exact Hw]].
    + now apply (rejected_on_support kappa (IZR (dim - 1)) pre Hpre_u).
    + now apply passes_accepted.
Qed.

Lemma sample_weight_returns_first_accepted_witness :
  _sample_weight 1 2 [mkDraw (1 / 2) (1 / 2)]
  = Ok (candidate (wood_b 1 (IZR (2 - 1))) (1 / 2), []).
Proof.
  apply (sample_weight_returns_first_accepted
           1 2%Z [mkDraw (1 / 2) (1 / 2)]).
  - lra.
  - lia.
  - repeat constructor; simpl; lra.
  - exists [], (mkDraw (1 / 2) (1 / 2)). repeat split.
    + constructor.
    + apply accepted_half; simpl; lra.
Defined.

Lemma ln_le_minus_1 (t : R) : 0 < t -> ln t <= t - 1.
Proof.
  intros Ht. apply Rnot_lt_le. intros H.
  apply exp_increasing in H. rewrite exp_ln in H by exact Ht.
  pose proof (exp_ineq1_le (t - 1)). lra.
Qed.





Lemma sample_weight_half_returns (kappa : R) (dim : Z) (u : R) (rng : list draw) :
  0 <= kappa -> (2 <= dim)%Z -> 0 < u < 1 ->
  _sample_weight kappa dim (mkDraw (1 / 2) u :: rng)
  = Ok (candidate (wood_b kappa (IZR (dim - 1))) (1 / 2), rng).
Proof.
  intros Hk Hdim Hu. pose proof (IZR_pred_ge_1 _ Hdim) as Hd.
  rewrite _sample_weight_unfold. apply rejection_loop_first; [lra|].
  exists [], (mkDraw (1 / 2) u). repeat split.
  - constructor.
  - apply passes_accepted; [simpl; lra|]. now apply accepted_half.
Qed.




(** In binary64 the end point 1 is reached well inside the Beta range: for
    the draw z = 1e-20 (the float nearest to it) the product [(1 + b) * z]
    is lost against 1 and the candidate is 1.0 exactly, as for z = 0. *)
Lemma candidate64_small_draw :
  Binary64.candidate64 (Binary64.wood_b64 PrimFloat.one PrimFloat.one)
    Binary64.draw_1e_20
  = PrimFloat.one.
Proof. vm_compute. reflexivity. Qed.

(** At the draw z = 1.0 the binary64 candidate is not -1.0 but the float
    just below it: the statements on the returned weight leave that draw
    out. *)
Lemma candidate64_draw_one :
  Binary64.candidate64 (Binary64.wood_b64 PrimFloat.one PrimFloat.one)
    PrimFloat.one
  = Binary64.below_minus_one.
Proof. vm_compute. reflexivity. Qed.




(** ** The orthogonal direction *)

Section Ortho.

Lemma noise_row_length noise dim i : length (noise_row noise dim i) = dim.
Proof. unfold noise_row. now rewrite length_map, length_seq. Qed.

Lemma randn_nth_error noise b d i :
  (i < b)%nat -> nth_error (randn noise b d) i = Some (noise_row noise d i).
Proof.
  intros Hi. unfold randn.
  rewrite nth_error_map, nth_error_seq.
  destruct (Nat.ltb_spec i b); [reflexivity | lia].
Qed.

Lemma randn_length noise b d : length (randn noise b d) = b.
Proof. unfold randn. now rewrite length_map, length_seq. Qed.

Lemma residual_length (m v : vec) :
  length m = length v -> length (residual m v) = length v.
Proof.
  intros H. unfold residual. rewrite vsub_length; [reflexivity|].
  now rewrite scale_length.
Qed.

(** The residual is orthogonal to a unit direction. *)
Lemma residual_dot (m v : vec) :
  length m = length v -> norm2 m = 1 -> dot (residual m v) m = 0.
Proof.
  intros Hlen Hm. unfold residual.
  rewrite dot_vsub_l; [| now rewrite scale_length | now rewrite scale_length].
  rewrite dot_scale_l, (unit_dot_self _ Hm), (dot_comm v m). ring.
Qed.

(** On a sphere of one coordinate nothing is left after the projection. *)
Lemma residual_dim1 (m v : vec) :
  length m = 1%nat -> length v = 1%nat -> norm2 m = 1 ->
  norm2 (residual m v) = 0.
Proof.
  intros Hm Hv Hn.
  destruct m as [|a [|? ?]]; try discriminate.
  destruct v as [|x [|? ?]]; try discriminate.
  pose proof (unit_dot_self _ Hn) as Hd.
  unfold dot, tsum in Hd; simpl in Hd.
  unfold residual, norm2, vsub, scale, dot, tsum; simpl.
  replace ((x - a * (a * x + 0)) * (x - a * (a * x + 0)) + 0)
    with (x * x * ((1 - (a * a + 0)) * (1 - (a * a + 0)))) by ring.
  rewrite Hd. replace (x * x * ((1 - 1) * (1 - 1))) with 0 by ring.
  apply sqrt_0.
Qed.

Lemma zip_with_nth_error_inv {A B C : Type} (f : A -> B -> C) l m i c :
  nth_error (zip_with f l m) i = Some c ->
  exists a b, nth_error l i = Some a /\ nth_error m i = Some b /\ c = f a b.
Proof.
  revert m i; induction l as [|a l IH]; intros [|b m] [|i] H;
    simpl in *; try discriminate.
  - injection H as <-. eauto.
  - eauto.
Qed.

(** Row [i] of the difference [v.squeeze() - proj_mu_v] when it is taken
    entry by entry. *)
Lemma regular_ortho_row (mu : Tensor2) (dim : nat) noise i m :
  nth_error (rows mu) i = Some m ->
  nth_error
    (zip_with vsub (randn noise (batch_of mu) dim)
       (zip_with scale (rows mu)
          (zip_with dot (rows mu) (randn noise (batch_of mu) dim)))) i
  = Some (residual m (noise_row noise dim i)).
Proof.
  intros Hm.
  assert (Hi : (i < batch_of mu)%nat).
  { unfold batch_of. apply nth_error_Some. congruence. }
  pose proof (randn_nth_error noise _ dim _ Hi) as Hv.
  unfold residual.
  apply zip_with_nth_error; [exact Hv|].
  apply zip_with_nth_error; [exact Hm|].
  apply zip_with_nth_error; assumption.
Qed.

End Ortho.

Lemma regular_ortho_length (mu : Tensor2) (dim : nat) noise :
  length
    (zip_with vsub (randn noise (batch_of mu) dim)
       (zip_with scale (rows mu)
          (zip_with dot (rows mu) (randn noise (batch_of mu) dim))))
  = batch_of mu.
Proof.
  pose proof (randn_length noise (batch_of mu) dim) as Hv.
  assert (Hd : length (zip_with dot (rows mu) (randn noise (batch_of mu) dim))
               = batch_of mu).
  { rewrite zip_with_length; [reflexivity | now rewrite Hv]. }
  assert (Hs : length (zip_with scale (rows mu)
                 (zip_with dot (rows mu) (randn noise (batch_of mu) dim)))
               = batch_of mu).
  { rewrite zip_with_length; [reflexivity | now rewrite Hd]. }
  rewrite zip_with_length; [exact Hv | now rewrite Hv, Hs].
Qed.

(** The rows of the result of [_sample_ortho_batch], whenever some residual
    is left for every example. *)
Lemma sample_ortho_batch_rows (mu : Tensor2) (noise : nat -> nat -> R) :
  wf mu ->
  Forall (fun m => norm2 m = 1) (rows mu) ->
  (forall i m, nth_error (rows mu) i = Some m ->
     norm2 (residual m (noise_row noise (ncols mu) i)) <> 0) ->
  exists y,
    _sample_ortho_batch mu (ncols mu) noise = Ok y /\
    length (rows y) = batch_of mu /\
    forall i m, nth_error (rows mu) i = Some m ->
      nth_error (rows y) i =
      Some (divs (residual m (noise_row noise (ncols mu) i))
                 (norm2 (residual m (noise_row noise (ncols mu) i)))).
Proof.
  intros Hwf Hunit Hres.
  unfold _sample_ortho_batch, GVar. rewrite Nat.eqb_refl. cbn [negb].
  eexists; split; [reflexivity|]. cbn [rows].
  unfold squeeze_sub.
  destruct ((ncols mu =? 1)%nat && negb (batch_of mu =? 1)%nat) eqn:Hirr.
  - (* the squeezed draw is one row: only an empty batch gets here *)
    apply andb_prop in Hirr. destruct Hirr as [Hd Hb].
    apply Nat.eqb_eq in Hd.
    destruct (rows mu) as [|m0 rest] eqn:Hrows.
    + unfold batch_of. rewrite Hrows. simpl. split; [reflexivity|].
      intros [|i] m H; discriminate.
    + exfalso. apply (Hres 0%nat m0); [reflexivity|].
      unfold wf in Hwf. rewrite Hrows in Hwf.
      inversion Hwf; subst. inversion Hunit; subst.
      apply residual_dim1; [congruence | | assumption].
      rewrite noise_row_length. exact Hd.
  - cbn [rows]. split.
    + rewrite length_map. apply regular_ortho_length.
    + intros i m Hm. rewrite nth_error_map.
      now rewrite (regular_ortho_row mu (ncols mu) noise i m Hm).
Qed.

(** C6.  For a batch of unit-norm mean directions and a standard-normal
    draw that leaves a nonzero residual for every example,
    [_sample_ortho_batch] returns, per example, the residual of the random
    vector after its component along the mean direction is projected out,
    divided by its norm: a vector of norm 1 whose dot product with the mean
    direction is 0. *)
Theorem sample_ortho_batch_unit_orthogonal
  (mu : Tensor2) (dim : nat) (noise : nat -> nat -> R) :
  wf mu -> ncols mu = dim ->
  Forall (fun m => norm2 m = 1) (rows mu) ->
  (forall i m, nth_error (rows mu) i = Some m ->
     norm2 (residual m (noise_row noise dim i)) <> 0) ->
  exists y,
    _sample_ortho_batch mu dim noise = Ok y /\
    length (rows y) = batch_of mu /\
    forall i m, nth_error (rows mu) i = Some m ->
      exists yi,
        nth_error (rows y) i = Some yi /\
        yi = divs (residual m (noise_row noise dim i))
                  (norm2 (residual m (noise_row noise dim i))) /\
        norm2 yi = 1 /\
        dot yi m = 0.
Proof.
  intros Hwf <- Hunit Hres.
  destruct (sample_ortho_batch_rows mu noise Hwf Hunit Hres)
    as (y & Hy & Hlen & Hrows).
  exists y. repeat split; try assumption.
  intros i m Hm. eexists. split; [apply (Hrows i m Hm)|].
  split; [reflexivity|].
  assert (Hmlen : length m = length (noise_row noise (ncols mu) i)).
  { rewrite noise_row_length. unfold wf in Hwf.
    rewrite Forall_forall in Hwf. apply Hwf.
    eapply nth_error_In; eassumption. }
  assert (Hmu : norm2 m = 1).
  { rewrite Forall_forall in Hunit. apply Hunit.
    eapply nth_error_In; eassumption. }
  split.
  - apply norm2_divs_self. now apply Hres.
  - rewrite dot_divs_l, residual_dot by assumption.
    unfold Rdiv. ring.
Qed.

Lemma sample_ortho_batch_unit_orthogonal_witness :
  exists y,
    _sample_ortho_batch (mkT2 2 [[1; 0]]) 2
      (fun _ j => if (j =? 1)%nat then 1 else 0) = Ok y /\
    length (rows y) = batch_of (mkT2 2 [[1; 0]]) /\
    forall i m, nth_error (rows (mkT2 2 [[1; 0]])) i = Some m ->
      exists yi,
        nth_error (rows y) i = Some yi /\
        yi = divs (residual m (noise_row (fun _ j => if (j =? 1)%nat then 1 else 0) 2 i))
               (norm2 (residual m (noise_row (fun _ j => if (j =? 1)%nat then 1 else 0) 2 i))) /\
        norm2 yi = 1 /\
        dot yi m = 0.
Proof.
  apply (sample_ortho_batch_unit_orthogonal (mkT2 2 [[1; 0]]) 2
           (fun _ j => if (j =? 1)%nat then 1 else 0)).
  - repeat constructor.
  - reflexivity.
  - repeat constructor. unfold norm2, tsum; simpl.
    replace (1 * 1 + (0 * 0 + 0)) with 1 by ring. apply sqrt_1.
  - intros [|[|i]] m H; simpl in H; try discriminate.
    injection H as <-.
    unfold residual, noise_row, norm2, vsub, scale, dot, tsum; simpl.
    replace ((0 - 1 * (1 * 0 + (0 * 1 + 0))) * (0 - 1 * (1 * 0 + (0 * 1 + 0)))
             + ((1 - 0 * (1 * 0 + (0 * 1 + 0))) * (1 - 0 * (1 * 0 + (0 * 1 + 0))) + 0))
      with 1 by ring.
    rewrite sqrt_1. lra.
Defined.

(** ** The parameter estimator *)

Section Estimator.

Lemma Linear_forward_ok (l : Linear) (x : Tensor2) :
  ncols x = in_features l ->
  exists y, Linear_forward l x = Ok y /\
            ncols y = out_features l /\
            length (rows y) = batch_of x.
Proof.
  intros H. unfold Linear_forward. rewrite H, Nat.eqb_refl.
  eexists; split; [reflexivity|]. cbn [ncols rows].
  split; [reflexivity|]. apply length_map.
Qed.

Lemma Forall_normalized (l : list vec) :
  Forall (fun p => norm2 p <> 0) l ->
  Forall (fun m => norm2 m = 1) (map (fun p => divs p (norm2 p)) l).
Proof.
  intros H. apply Forall_map. eapply Forall_impl; [|exact H].
  intros p Hp. now apply norm2_divs_self.
Qed.

(** C5.  For a batch of hidden vectors of the layer's hidden size whose
    linear projection [func_mu(latent_code)] is nonzero for every example,
    [estimate_param] succeeds, its 'mu' is that projection with every row
    divided by its own L2 norm, and every row of 'mu' has L2 norm 1. *)
Theorem estimate_param_mu_unit_norm
  (self : VmfDiff) (latent_code proj : Tensor2) :
  VmfDiff_wf self ->
  ncols latent_code = hid_dim self ->
  Linear_forward (func_mu self) latent_code = Ok proj ->
  Forall (fun p => norm2 p <> 0) (rows proj) ->
  exists ret,
    estimate_param self latent_code = Ok ret /\
    rows (tup_mu ret) = map (fun p => divs p (norm2 p)) (rows proj) /\
    Forall (fun m => norm2 m = 1) (rows (tup_mu ret)).
Proof.
  intros (_ & _ & Hmu_in & _ & Hk_in & _) Hcols Hproj Hnz.
  destruct (Linear_forward_ok (func_kappa self) latent_code) as (k & Hk & _);
    [congruence|].
  unfold estimate_param. rewrite Hk, Hproj. cbn [bind].
  eexists; split; [reflexivity|]. cbn [tup_mu normalize_rows rows].
  split; [reflexivity|]. now apply Forall_normalized.
Qed.

End Estimator.

Lemma estimate_param_mu_unit_norm_witness :
  exists ret,
    estimate_param demo_layer demo_code = Ok ret /\
    rows (tup_mu ret) = map (fun p => divs p (norm2 p)) (rows demo_proj) /\
    Forall (fun m => norm2 m = 1) (rows (tup_mu ret)).
Proof.
  apply (estimate_param_mu_unit_norm demo_layer demo_code demo_proj).
  - unfold VmfDiff_wf, Linear_wf; simpl. repeat split; repeat constructor.
  - reflexivity.
  - reflexivity.
  - repeat constructor.
    unfold demo_proj, norm2, vadd, dot, tsum; simpl.
    replace ((1 * 1 + 0 + 0) * (1 * 1 + 0 + 0)
             + ((1 * 0 + 0 + 0) * (1 * 0 + 0 + 0) + 0)) with 1 by ring.
    rewrite sqrt_1. lra.
Defined.

(** ** The batch of weights *)

Section WeightBatch.

Lemma rejection_loop_needs_dim (kappa dim' b x c : R) rng w rng' :
  rejection_loop kappa dim' b x c rng = Ok (w, rng') -> 0 < dim'.
Proof.
  destruct rng as [|d rng]; simpl;
    destruct (Rle_dec (dim' / 2) 0); try discriminate; intros _; lra.
Qed.

Lemma sample_weight_needs_dim (kappa : R) (dim : Z) rng w rng' :
  _sample_weight kappa dim rng = Ok (w, rng') -> (2 <= dim)%Z.
Proof.
  intros H. rewrite _sample_weight_unfold in H.
  apply rejection_loop_needs_dim in H.
  apply lt_IZR in H. lia.
Qed.


Lemma weight_loop_inv (kappa : list R) (dim : Z) b bs rng ws rng' :
  weight_loop kappa dim (b :: bs) rng = Ok (ws, rng') ->
  exists k w ws' rng1,
    nth_error kappa b = Some k /\
    _sample_weight k dim rng = Ok (w, rng1) /\
    weight_loop kappa dim bs rng1 = Ok (ws', rng') /\
    ws = w :: ws'.
Proof.
  simpl. destruct (nth_error kappa b) as [k|]; [|discriminate].
  destruct (_sample_weight k dim rng) as [[w rng1]| |] eqn:Hw;
    try discriminate.
  cbn [bind].
  destruct (weight_loop kappa dim bs rng1) as [[ws' rng2]| |] eqn:Hrest;
    try discriminate.
  cbn [bind]. intros H; injection H as <- <-.
  exists k, w, ws', rng1. repeat split; assumption.
Qed.

Lemma weight_loop_length (kappa : list R) (dim : Z) bs rng ws rng' :
  weight_loop kappa dim bs rng = Ok (ws, rng') -> length ws = length bs.
Proof.
  revert rng ws; induction bs as [|b bs IH]; intros rng ws H.
  - simpl in H. injection H as <- _. reflexivity.
  - apply weight_loop_inv in H.
    destruct H as (k & w & ws' & rng1 & _ & _ & H & ->).
    simpl. f_equal. eapply IH; eassumption.
Qed.

Lemma weight_loop_needs_dim (kappa : list R) (dim : Z) bs rng ws rng' :
  bs <> [] ->
  weight_loop kappa dim bs rng = Ok (ws, rng') -> (2 <= dim)%Z.
Proof.
  destruct bs as [|b bs]; [congruence|]. intros _ H.
  apply weight_loop_inv in H.
  destruct H as (k & w & ws' & rng1 & _ & H & _).
  eapply sample_weight_needs_dim; eassumption.
Qed.


End WeightBatch.

(** ** The combination of one cell *)

Section Cell.

Lemma zip_with_length_min {A B C : Type} (f : A -> B -> C) l m :
  length (zip_with f l m) = Nat.min (length l) (length m).
Proof.
  revert m; induction l as [|a l IH]; intros [|b m]; simpl; auto.
Qed.

Lemma normalize_rows_unit (mu : Tensor2) :
  Forall (fun m => norm2 m = 1) (rows mu) -> normalize_rows mu = mu.
Proof.
  destruct mu as [d rs]. unfold normalize_rows. cbn [ncols rows].
  intros H. f_equal. induction H as [|m rs Hm _ IH]; simpl; [reflexivity|].
  now rewrite IH, divs_unit.
Qed.


(** The result of [_sample_ortho_batch] when the difference is taken entry
    by entry. *)
Lemma sample_ortho_batch_regular (mu : Tensor2) (noise : nat -> nat -> R) :
  ((ncols mu =? 1)%nat && negb (batch_of mu =? 1)%nat) = false ->
  exists y,
    _sample_ortho_batch mu (ncols mu) noise = Ok y /\
    length (rows y) = batch_of mu /\
    forall i m, nth_error (rows mu) i = Some m ->
      nth_error (rows y) i =
      Some (divs (residual m (noise_row noise (ncols mu) i))
                 (norm2 (residual m (noise_row noise (ncols mu) i)))).
Proof.
  intros Hreg.
  unfold _sample_ortho_batch, GVar. rewrite Nat.eqb_refl. cbn [negb].
  eexists; split; [reflexivity|]. cbn [rows].
  unfold squeeze_sub. rewrite Hreg. cbn [rows]. split.
  - rewrite length_map. apply regular_ortho_length.
  - intros i m Hm. rewrite nth_error_map.
    now rewrite (regular_ortho_row mu (ncols mu) noise i m Hm).
Qed.

(** Row [i] of [sampled_vec], from row [i] of each of its ingredients. *)
Lemma cell_row (d b : nat) (V M : Tensor2) (ws : list R)
  (i : nat) (vi m : vec) (w : R) :
  nth_error (rows V) i = Some vi ->
  nth_error (rows M) i = Some m ->
  nth_error ws i = Some w ->
  (i < b)%nat -> length vi = d -> length m = d ->
  nth_error
    (rows
       (t2_zip Rplus
          (t2_zip Rmult V
             (t2_map sqrt
                (t2_zip Rminus (GVar (ones b d))
                   (t2_map (fun y => y ^ 2)
                      (GVar (col_bcast Rmult ws (ones b d)))))))
          (t2_zip Rmult M
             (GVar (col_bcast Rmult ws (ones b d)))))) i
  = Some (combine vi m w).
Proof.
  intros Hv Hm Hw Hi Hlv Hlm.
  unfold t2_zip, t2_map, col_bcast, ones, GVar. cbn [rows ncols].
  assert (Hone : nth_error (repeat (repeat 1 d) b) i = Some (repeat 1 d))
    by now apply nth_error_repeat.
  assert (Hwv : nth_error
                  (zip_with (fun c r => map (Rmult c) r) ws
                     (repeat (repeat 1 d) b)) i
                = Some (repeat w d)).
  { rewrite (zip_with_nth_error _ _ _ _ _ _ Hw Hone).
    now rewrite map_repeat, Rmult_1_r. }
  assert (Hsf : nth_error
                  (map (map sqrt)
                     (zip_with (zip_with Rminus) (repeat (repeat 1 d) b)
                        (map (map (fun y => y ^ 2))
                           (zip_with (fun c r => map (Rmult c) r) ws
                              (repeat (repeat 1 d) b))))) i
                = Some (repeat (sqrt (1 - w ^ 2)) d)).
  { apply map_nth_error with (f := map (fun y => y ^ 2)) in Hwv.
    rewrite (map_nth_error (map sqrt) i _
               (zip_with_nth_error _ _ _ _ _ _ Hone Hwv)).
    rewrite map_repeat, zip_with_repeat_r by apply repeat_length.
    now rewrite !map_repeat. }
  rewrite (zip_with_nth_error _ _ _ _ _ _
             (zip_with_nth_error _ _ _ _ _ _ Hv Hsf)
             (zip_with_nth_error _ _ _ _ _ _ Hm Hwv)).
  unfold combine, vadd, scale.
  now rewrite !zip_with_repeat_r by assumption.
Qed.

Lemma sample_cell_inv (mu norm : Tensor2) (kappa : list R) rng noise out rng' :
  sample_cell mu norm kappa rng noise = Ok (out, rng') ->
  exists ws v,
    _sample_weight_batch kappa (Z.of_nat (ncols mu)) (batch_of mu) rng
      = Ok (ws, rng') /\
    _sample_ortho_batch (normalize_rows mu) (ncols mu) noise = Ok v /\
    sample_cell mu norm kappa rng noise = Ok (out, rng').
Proof.
  intros H. pose proof H as H0. unfold sample_cell in H.
  destruct (_sample_weight_batch kappa (Z.of_nat (ncols mu)) (batch_of mu) rng)
    as [[ws rng1]| |] eqn:Hws; try discriminate.
  cbn [bind] in H.
  destruct (_sample_ortho_batch (normalize_rows mu) (ncols mu) noise)
    as [v| |] eqn:Hv; try discriminate.
  cbn [bind] in H. injection H as _ <-.
  exists ws, v. auto.
Qed.

Lemma normalize_rows_nth (mu : Tensor2) i m :
  nth_error (rows mu) i = Some m ->
  nth_error (rows (normalize_rows mu)) i = Some (divs m (norm2 m)).
Proof.
  intros H. unfold normalize_rows. cbn [rows].
  now apply map_nth_error with (f := fun r => divs r (norm2 r)).
Qed.

Lemma cell_length (b d : nat) (V M : Tensor2) (ws : list R) :
  length (rows V) = b -> length (rows M) = b -> length ws = b ->
  length
    (rows
       (t2_zip Rplus
          (t2_zip Rmult V
             (t2_map sqrt
                (t2_zip Rminus (GVar (ones b d))
                   (t2_map (fun y => y ^ 2)
                      (GVar (col_bcast Rmult ws (ones b d)))))))
          (t2_zip Rmult M (GVar (col_bcast Rmult ws (ones b d))))))
  = b.
Proof.
  intros HV HM Hws.
  unfold t2_zip, t2_map, col_bcast, ones, GVar. cbn [rows ncols].
  rewrite !zip_with_length_min, !length_map, !zip_with_length_min,
    !length_map, !zip_with_length_min, !repeat_length.
  unfold vec in *. lia.
Qed.

(** The rows of the tensor that [sample_cell] returns, once the batch of
    weights and the batch of orthogonal directions are known. *)
Lemma sample_cell_rows (mu norm : Tensor2) (kappa : list R) rng noise
  ws rng' v :
  wf mu ->
  _sample_weight_batch kappa (Z.of_nat (ncols mu)) (batch_of mu) rng
    = Ok (ws, rng') ->
  _sample_ortho_batch (normalize_rows mu) (ncols mu) noise = Ok v ->
  exists s,
    sample_cell mu norm kappa rng noise = Ok ([s], rng') /\
    length (rows s) = batch_of mu /\
    (batch_of mu <> 0%nat -> (2 <= ncols mu)%nat) /\
    forall i m, nth_error (rows mu) i = Some m ->
      exists w,
        nth_error ws i = Some w /\
        nth_error (rows v) i =
          Some (divs (residual (divs m (norm2 m)) (noise_row noise (ncols mu) i))
                  (norm2 (residual (divs m (norm2 m))
                            (noise_row noise (ncols mu) i)))) /\
        nth_error (rows s) i =
          Some (combine
                  (divs (residual (divs m (norm2 m))
                           (noise_row noise (ncols mu) i))
                     (norm2 (residual (divs m (norm2 m))
                               (noise_row noise (ncols mu) i))))
                  (divs m (norm2 m)) w).
Proof.
  intros Hwf Hws Hv.
  assert (Hlws : length ws = batch_of mu).
  { unfold _sample_weight_batch in Hws.
    apply weight_loop_length in Hws. now rewrite length_seq in Hws. }
  assert (Hdim : batch_of mu <> 0%nat -> (2 <= ncols mu)%nat).
  { intros Hb. unfold _sample_weight_batch in Hws.
    apply weight_loop_needs_dim in Hws; [lia|].
    destruct (batch_of mu); [congruence | discriminate]. }
  assert (Hbn : batch_of (normalize_rows mu) = batch_of mu).
  { unfold batch_of, normalize_rows. cbn [rows]. apply length_map. }
  unfold sample_cell. rewrite Hws. cbn [bind]. rewrite Hv. cbn [bind].
  eexists; split; [reflexivity|].
  destruct (Nat.eq_dec (batch_of mu) 0) as [Hb0|Hb0].
  - (* an empty batch *)
    assert (Hrows : rows mu = []).
    { unfold batch_of in Hb0. now apply length_zero_iff_nil. }
    split; [|split; [exact Hdim|]].
    + unfold t2_zip, normalize_rows. cbn [rows]. rewrite Hrows. cbn [map].
      rewrite zip_with_length_min, Hb0. simpl. lia.
    + intros i m Hm. rewrite Hrows in Hm. destruct i; discriminate.
  - specialize (Hdim Hb0).
    destruct (sample_ortho_batch_regular (normalize_rows mu) noise)
      as (y & Hy & Hylen & Hyrows).
    { cbn [normalize_rows ncols].
      destruct (Nat.eqb_spec (ncols mu) 1); [lia | reflexivity]. }
    cbn [normalize_rows ncols] in Hy. fold (normalize_rows mu) in Hy.
    rewrite Hv in Hy. injection Hy as <-.
    split; [|split; [intros _; exact Hdim|]].
    + apply cell_length; [now rewrite Hylen | exact Hbn | exact Hlws].
    + intros i m Hm.
      assert (Hi : (i < batch_of mu)%nat).
      { unfold batch_of. apply nth_error_Some. congruence. }
      destruct (nth_error ws i) as [w|] eqn:Hw.
      2:{ apply nth_error_None in Hw. lia. }
      pose proof (normalize_rows_nth mu i m Hm) as Hm'.
      pose proof (Hyrows i _ Hm') as Hvi.
      cbn [normalize_rows ncols] in Hvi.
      assert (Hlm : length (divs m (norm2 m)) = ncols mu).
      { rewrite divs_length. unfold wf in Hwf. rewrite Forall_forall in Hwf.
        apply Hwf. eapply nth_error_In; eassumption. }
      exists w. split; [reflexivity|]. split; [exact Hvi|].
      apply cell_row; try assumption.
      rewrite divs_length, residual_length; rewrite noise_row_length; auto.
Qed.

End Cell.

(** ** The sample lies on the unit sphere *)

Section Sphere.

Lemma combine_length (v m : vec) (w : R) :
  length v = length m -> length (combine v m w) = length m.
Proof.
  intros H. unfold combine.
  rewrite vadd_length; rewrite !scale_length; auto.
Qed.

(** Coordinate [j] of the combination: the one scalar [w] serves every
    coordinate. *)
Lemma combine_nth_error (v m : vec) (w : R) (j : nat) (vj mj : R) :
  nth_error v j = Some vj -> nth_error m j = Some mj ->
  nth_error (combine v m w) j = Some (vj * sqrt (1 - w ^ 2) + mj * w).
Proof.
  intros Hv Hm. unfold combine, vadd, scale.
  apply zip_with_nth_error.
  - now apply map_nth_error with (f := fun x => x * sqrt (1 - w ^ 2)).
  - now apply map_nth_error with (f := fun x => x * w).
Qed.




Lemma Forall_nth_error_elim {A : Type} (P : A -> Prop) (l : list A) i a :
  Forall P l -> nth_error l i = Some a -> P a.
Proof.
  intros H Hi. rewrite Forall_forall in H. apply H.
  eapply nth_error_In; eassumption.
Qed.



End Sphere.

(** ** sample_cell *)

Section SampleCell.

Lemma demo_mu_wf : wf demo_mu.
Proof. repeat constructor. Qed.

Lemma demo_mu_unit : Forall (fun m => norm2 m = 1) (rows demo_mu).
Proof.
  repeat constructor. unfold norm2, tsum; simpl.
  replace (1 * 1 + (0 * 0 + 0)) with 1 by ring. apply sqrt_1.
Qed.


Lemma demo_weights :
  _sample_weight_batch [1] (Z.of_nat (ncols demo_mu)) (batch_of demo_mu) demo_rng
  = Ok ([demo_w], []).
Proof.
  unfold _sample_weight_batch, demo_rng. cbn [batch_of demo_mu rows length seq weight_loop nth_error ncols].
  change (Z.of_nat 2) with 2%Z.
  rewrite sample_weight_half_returns by (lra || lia).
  reflexivity.
Qed.

Lemma demo_ortho :
  _sample_ortho_batch (normalize_rows demo_mu) (ncols demo_mu) demo_noise
  = Ok demo_v.
Proof. reflexivity. Qed.

(** C7.  Given the weights [ws] that [_sample_weight_batch] produces and the
    orthogonal directions [v] that [_sample_ortho_batch] produces for the
    (renormalised) mean directions, [sample_cell] returns one tensor whose row
    for example [i] is [v_i * sqrt(1 - w_i^2) + mean_direction_i * w_i]: the
    scalar [w_i] is the same in all [lat_dim] coordinates.  The mean
    direction that enters is the input row divided by its norm, which is the
    input row itself when that has norm 1. *)
Theorem sample_cell_combination
  (mu norm : Tensor2) (kappa : list R) (rng : list draw)
  (noise : nat -> nat -> R) (ws : list R) (rng' : list draw) (v : Tensor2) :
  wf mu ->
  _sample_weight_batch kappa (Z.of_nat (ncols mu)) (batch_of mu) rng
    = Ok (ws, rng') ->
  _sample_ortho_batch (normalize_rows mu) (ncols mu) noise = Ok v ->
  exists s,
    sample_cell mu norm kappa rng noise = Ok ([s], rng') /\
    length (rows s) = batch_of mu /\
    forall i m, nth_error (rows mu) i = Some m ->
      exists w vi,
        nth_error ws i = Some w /\
        nth_error (rows v) i = Some vi /\
        nth_error (rows s) i = Some (combine vi (divs m (norm2 m)) w) /\
        length (combine vi (divs m (norm2 m)) w) = ncols mu /\
        (forall j vj mj,
           nth_error vi j = Some vj ->
           nth_error (divs m (norm2 m)) j = Some mj ->
           nth_error (combine vi (divs m (norm2 m)) w) j
           = Some (vj * sqrt (1 - w ^ 2) + mj * w)) /\
        (norm2 m = 1 -> nth_error (rows s) i = Some (combine vi m w)).
Proof.
  intros Hwf Hws Hv.
  destruct (sample_cell_rows mu norm kappa rng noise ws rng' v Hwf Hws Hv)
    as (s & Hcell & Hlen & _ & Hrows).
  exists s. split; [exact Hcell|]. split; [exact Hlen|].
  intros i m Hm. destruct (Hrows i m Hm) as (w & Hw & Hvi & Hsi).
  pose proof (Forall_nth_error_elim _ _ _ _ Hwf Hm) as Hml.
  cbv beta in Hml.
  eexists w, _. split; [exact Hw|]. split; [exact Hvi|].
  split; [exact Hsi|]. split; [|split].
  - rewrite combine_length; rewrite !divs_length; [assumption|].
    rewrite residual_length; rewrite noise_row_length, ?divs_length; auto.
  - intros j vj mj Hvj Hmj. now apply combine_nth_error.
  - intros Hunit. rewrite (divs_unit m Hunit) in Hsi |- *. exact Hsi.
Qed.

Lemma sample_cell_combination_witness :
  exists s,
    sample_cell demo_mu (ones 1 2) [1] demo_rng demo_noise = Ok ([s], []) /\
    length (rows s) = 1%nat /\
    nth_error (rows s) 0
    = Some (combine
              (divs (residual (divs [1; 0] (norm2 [1; 0]))
                       (noise_row demo_noise 2 0))
                 (norm2 (residual (divs [1; 0] (norm2 [1; 0]))
                           (noise_row demo_noise 2 0))))
              [1; 0] demo_w).
Proof.
  destruct (sample_cell_combination demo_mu (ones 1 2) [1] demo_rng demo_noise
              [demo_w] [] demo_v demo_mu_wf demo_weights demo_ortho)
    as (s & Hcell & Hlen & Hrows).
  exists s. split; [exact Hcell|]. split; [exact Hlen|].
  destruct (Hrows 0%nat [1; 0] eq_refl) as (w & vi & Hw & Hvi & _ & _ & _ & Hs).
  injection Hw as <-. injection Hvi as <-.
  apply Hs. exact (Forall_inv demo_mu_unit).
Defined.

End SampleCell.



(** C10.  [sample_cell] never reads its [norm] argument: with the same mean
    directions, concentrations and random draws, two calls that differ only
    in [norm] return the same result, and so does the loop of
    [build_bow_rep] that calls it once per sample. *)
Theorem sample_cell_ignores_norm :
  (forall (mu norm_a norm_b : Tensor2) (kappa : list R) (rng : list draw)
          (noise : nat -> nat -> R),
     sample_cell mu norm_a kappa rng noise
     = sample_cell mu norm_b kappa rng noise) /\
  (forall (mu norm_a norm_b : Tensor2) (kappa : list R) (ns : list nat)
          (rng : list draw) (noises : nat -> nat -> nat -> R),
     sample_loop mu norm_a kappa ns rng noises
     = sample_loop mu norm_b kappa ns rng noises).
Proof.
  assert (Hcell : forall mu norm_a norm_b kappa rng noise,
             sample_cell mu norm_a kappa rng noise
             = sample_cell mu norm_b kappa rng noise) by reflexivity.
  split; [exact Hcell|].
  intros mu norm_a norm_b kappa ns. induction ns as [|n ns IH];
    intros rng noises; simpl.
  - reflexivity.
  - rewrite (Hcell mu norm_a norm_b).
    destruct (sample_cell mu norm_b kappa rng (noises n)) as [[smp rng1]| |];
      cbn [bind]; try reflexivity.
    now rewrite IH.
Qed.

(** ** Broadcasting *)

Section Broadcast.

Variable e : exn.
Variable f : R -> R -> R.

Lemma broadcast_single_l (x : R) (b : vec) :
  broadcast_exn e f [x] b = Ok (map (f x) b).
Proof. reflexivity. Qed.

Lemma broadcast_single_r (a : vec) (y : R) :
  length a <> 1%nat -> broadcast_exn e f a [y] = Ok (map (fun x => f x y) a).
Proof.
  destruct a as [|x [|x' a]]; simpl; intros H; reflexivity.
Qed.

Lemma broadcast_same (a b : vec) :
  length a = length b -> broadcast_exn e f a b = Ok (zip_with f a b).
Proof.
  destruct a as [|x [|x' a]]; destruct b as [|y [|y' b]]; simpl;
    intros H; try discriminate; try reflexivity.
  injection H as H. now rewrite H, Nat.eqb_refl.
Qed.

Lemma bget_nth (a : vec) (i : nat) :
  (i < length a)%nat -> bget a i = nth i a 0.
Proof.
  destruct a as [|x [|x' a]]; simpl; intros H; try reflexivity.
  destruct i; [reflexivity | lia].
Qed.

Lemma bget_single (a : vec) (i : nat) :
  length a = 1%nat -> bget a i = nth 0 a 0.
Proof.
  destruct a as [|x [|x' a]]; simpl; intros H; try discriminate; reflexivity.
Qed.

Lemma nth_map_lt (g : R -> R) (a : vec) (i : nat) :
  (i < length a)%nat -> nth i (map g a) 0 = g (nth i a 0).
Proof.
  intros H. rewrite (nth_indep _ 0 (g 0)) by now rewrite length_map.
  apply map_nth.
Qed.

Lemma nth_zip_with (a b : vec) (i : nat) :
  (i < length a)%nat -> length a = length b ->
  nth i (zip_with f a b) 0 = f (nth i a 0) (nth i b 0).
Proof.
  revert b i; induction a as [|x a IH]; intros [|y b] [|i] Hi Hlen;
    simpl in *; try lia; try reflexivity.
  apply IH; lia.
Qed.

(** One broadcast step, seen from the positions of a result of length [L]:
    each operand has length [L], or one element that every position reads. *)
Lemma broadcast_pointwise (a b : vec) (L : nat) :
  (length a = L \/ length a = 1%nat) ->
  (length b = L \/ length b = 1%nat) ->
  (length a = L \/ length b = L) ->
  exists c,
    broadcast_exn e f a b = Ok c /\
    length c = L /\
    forall i, (i < L)%nat -> nth i c 0 = f (bget a i) (bget b i).
Proof.
  intros Ha Hb Hab.
  destruct (Nat.eq_dec (length a) 1) as [Ha1|Ha1].
  - (* the left operand is repeated *)
    destruct a as [|x [|x' a]]; try discriminate.
    assert (HbL : length b = L) by (simpl in *; lia).
    exists (map (f x) b). split; [reflexivity|].
    split; [now rewrite length_map|].
    intros i Hi. rewrite nth_map_lt by lia.
    rewrite (bget_nth b) by lia. reflexivity.
  - assert (HaL : length a = L) by lia.
    destruct (Nat.eq_dec (length b) 1) as [Hb1|Hb1].
    + (* the right operand is repeated *)
      destruct b as [|y [|y' b]]; try discriminate.
      exists (map (fun x => f x y) a).
      split; [now apply broadcast_single_r|].
      split; [now rewrite length_map|].
      intros i Hi. rewrite (nth_map_lt (fun x => f x y)) by lia.
      rewrite (bget_nth a) by lia. reflexivity.
    + assert (HbL : length b = L) by lia.
      exists (zip_with f a b).
      split; [apply broadcast_same; congruence|].
      split; [rewrite zip_with_length; congruence|].
      intros i Hi. rewrite nth_zip_with by congruence.
      now rewrite !bget_nth by lia.
Qed.

End Broadcast.

(** ** The gradient of the scaled Bessel function *)

Section BesselGradient.

Variable ive : R -> R -> R.

Lemma blen_cases (a b : vec) :
  compat a b ->
  (length a = blen a b \/ length a = 1%nat) /\
  (length b = blen a b \/ length b = 1%nat) /\
  (length a = blen a b \/ length b = blen a b).
Proof.
  unfold compat, blen. intros H.
  destruct (Nat.eqb_spec (length a) 1); lia.
Qed.

Lemma bget_map (g : R -> R) (a : vec) (i : nat) :
  (i < length a)%nat \/ length a = 1%nat ->
  bget (map g a) i = g (bget a i).
Proof.
  destruct a as [|x [|x' a]]; intros H.
  - simpl in H. lia.
  - reflexivity.
  - assert (Hi : (i < length (x :: x' :: a))%nat) by (simpl in *; lia).
    change (bget (map g (x :: x' :: a)) i)
      with (nth i (map g (x :: x' :: a)) 0).
    change (bget (x :: x' :: a) i) with (nth i (x :: x' :: a) 0).
    now apply nth_map_lt.
Qed.

Lemma forward_pointwise (nu kappa : vec) (L : nat) :
  (length nu = L \/ length nu = 1%nat) ->
  (length kappa = L \/ length kappa = 1%nat) ->
  (length nu = L \/ length kappa = L) ->
  exists out,
    BesselIve.forward ive nu kappa = Ok (BesselIve.mkCtx (nu, kappa), out) /\
    BesselIve.apply ive nu kappa = Ok out /\
    length out = L /\
    forall i, (i < L)%nat -> nth i out 0 = ive (bget nu i) (bget kappa i).
Proof.
  intros Hn Hk Hnk.
  destruct (broadcast_pointwise ValueError ive nu kappa L Hn Hk Hnk)
    as (out & Hout & Hlen & Hpt).
  exists out. unfold BesselIve.apply, BesselIve.forward.
  rewrite Hout. cbn [bind]. auto.
Qed.

(** The gradient that [backward] returns for the context [forward] saved. *)
Lemma backward_pointwise (nu kappa grad_output : vec) :
  compat nu kappa ->
  length grad_output = blen nu kappa ->
  exists lo hi grad,
    BesselIve.apply ive (map (fun d => d - 1) nu) kappa = Ok lo /\
    BesselIve.apply ive nu kappa = Ok hi /\
    BesselIve.backward ive (BesselIve.mkCtx (nu, kappa)) grad_output
      = Ok (None, grad) /\
    length grad = blen nu kappa /\
    forall i, (i < blen nu kappa)%nat ->
      nth i lo 0 = ive (bget nu i - 1) (bget kappa i) /\
      nth i hi 0 = ive (bget nu i) (bget kappa i) /\
      nth i grad 0
      = nth i grad_output 0
        * (nth i lo 0 - nth i hi 0 * (bget nu i + bget kappa i) / bget kappa i).
Proof.
  intros Hc Hg. destruct (blen_cases nu kappa Hc) as (Hn & Hk & Hnk).
  set (L := blen nu kappa) in *.
  assert (Hn1 : length (map (fun d => d - 1) nu) = L
                \/ length (map (fun d => d - 1) nu) = 1%nat)
    by now rewrite length_map.
  assert (Hnk1 : length (map (fun d => d - 1) nu) = L \/ length kappa = L)
    by now rewrite length_map.
  destruct (forward_pointwise _ kappa L Hn1 Hk Hnk1)
    as (lo & _ & Hlo & Hlo_len & Hlo_pt).
  destruct (forward_pointwise nu kappa L Hn Hk Hnk)
    as (hi & _ & Hhi & Hhi_len & Hhi_pt).
  destruct (broadcast_pointwise RuntimeError Rplus nu kappa L Hn Hk Hnk)
    as (dk & Hdk & Hdk_len & Hdk_pt).
  destruct (broadcast_pointwise RuntimeError Rmult hi dk L) as (t1 & Ht1 & Ht1_len & Ht1_pt);
    auto.
  destruct (broadcast_pointwise RuntimeError Rdiv t1 kappa L) as (t2 & Ht2 & Ht2_len & Ht2_pt);
    auto.
  destruct (broadcast_pointwise RuntimeError Rminus lo t2 L) as (t3 & Ht3 & Ht3_len & Ht3_pt);
    auto.
  destruct (broadcast_pointwise RuntimeError Rmult grad_output t3 L)
    as (grad & Hgrad & Hgrad_len & Hgrad_pt); auto.
  exists lo, hi, grad.
  split; [exact Hlo|]. split; [exact Hhi|]. split.
  - unfold BesselIve.backward. cbn [BesselIve.saved_tensors].
    rewrite Hlo. cbn [bind]. rewrite Hhi. cbn [bind].
    rewrite Hdk. cbn [bind]. rewrite Ht1. cbn [bind].
    rewrite Ht2. cbn [bind]. rewrite Ht3. cbn [bind].
    rewrite Hgrad. reflexivity.
  - split; [exact Hgrad_len|]. intros i Hi.
    split.
    { rewrite Hlo_pt by exact Hi. f_equal. apply bget_map. lia. }
    split; [now apply Hhi_pt|].
    rewrite Hgrad_pt by exact Hi.
    rewrite (bget_nth grad_output) by lia.
    rewrite (bget_nth t3) by lia.
    rewrite Ht3_pt by exact Hi.
    rewrite (bget_nth lo), (bget_nth t2) by lia.
    rewrite Ht2_pt by exact Hi.
    rewrite (bget_nth t1) by lia.
    rewrite Ht1_pt by exact Hi.
    rewrite (bget_nth hi), (bget_nth dk) by lia.
    rewrite Hdk_pt by exact Hi.
    reflexivity.
Qed.

End BesselGradient.

(** C2.  For an order tensor [nu] and a strictly positive argument tensor
    [kappa] that broadcast against each other, and an upstream gradient of
    the shape of the output, the backward pass on the context that the
    forward pass saved returns [None] for the order and, for the argument,
    the tensor whose entry [i] is
    [grad_output_i * (Ive(nu_i - 1, kappa_i) - Ive(nu_i, kappa_i) * (nu_i + kappa_i) / kappa_i)],
    where the two values of Ive are entries of the outputs of the same
    forward operation applied at the orders [nu - 1] and [nu]. *)
Theorem bessel_backward_gradient
  (ive : R -> R -> R) (nu kappa grad_output : vec) :
  compat nu kappa ->
  Forall (fun k => 0 < k) kappa ->
  length grad_output = blen nu kappa ->
  exists out lo hi grad,
    BesselIve.forward ive nu kappa = Ok (BesselIve.mkCtx (nu, kappa), out) /\
    bessel ive (map (fun d => d - 1) nu) kappa = Ok lo /\
    bessel ive nu kappa = Ok hi /\
    BesselIve.backward ive (BesselIve.mkCtx (nu, kappa)) grad_output
      = Ok (None, grad) /\
    length grad = length grad_output /\
    forall i, (i < length grad)%nat ->
      nth i lo 0 = ive (bget nu i - 1) (bget kappa i) /\
      nth i hi 0 = ive (bget nu i) (bget kappa i) /\
      nth i grad 0
      = nth i grad_output 0
        * (ive (bget nu i - 1) (bget kappa i)
           - ive (bget nu i) (bget kappa i) * (bget nu i + bget kappa i)
             / bget kappa i).
Proof.
  intros Hc _ Hg.
  destruct (blen_cases nu kappa Hc) as (Hn & Hk & Hnk).
  destruct (forward_pointwise ive nu kappa _ Hn Hk Hnk) as (out & Hfw & _).
  destruct (backward_pointwise ive nu kappa grad_output Hc Hg)
    as (lo & hi & grad & Hlo & Hhi & Hbw & Hlen & Hpt).
  exists out, lo, hi, grad. unfold bessel.
  repeat (split; [assumption|]). split; [congruence|].
  intros i Hi. rewrite Hlen in Hi.
  destruct (Hpt i Hi) as (H1 & H2 & H3).
  repeat (split; [assumption|]). now rewrite H3, H1, H2.
Qed.

Lemma bessel_backward_gradient_witness :
  exists grad,
    BesselIve.backward (fun nu x => nu + x) (BesselIve.mkCtx ([3], [2])) [5]
      = Ok (None, grad) /\
    nth 0 grad 0 = 5 * ((3 - 1 + 2) - (3 + 2) * (3 + 2) / 2).
Proof.
  destruct (bessel_backward_gradient (fun nu x => nu + x) [3] [2] [5])
    as (out & lo & hi & grad & _ & _ & _ & Hbw & Hlen & Hpt).
  - left. reflexivity.
  - repeat constructor. lra.
  - reflexivity.
  - exists grad. split; [exact Hbw|].
    assert (Hi : (0 < length grad)%nat) by (rewrite Hlen; simpl; lia).
    destruct (Hpt 0%nat Hi) as (_ & _ & H). exact H.
Defined.

(** ** The KL divergence *)

Section KLD.

Variable ive : R -> R -> R.
Variable loggamma : R -> R.

(** The constant of the code is written with the decimal 3.1415926 in both
    places where the formula has pi; the two logarithms cancel, whatever
    positive number stands there. *)
Lemma const_any_pi (a d lg : R) :
  0 < a ->
  ln a * d / 2 + ln 2 - lg - (d / 2) * ln (2 * a)
  = ln 2 - lg - (d / 2) * ln 2.
Proof.
  intros Ha. rewrite (ln_mult 2 a) by lra. field.
Qed.

Lemma code_const_is_KL_const (d : R) :
  ln 3.1415926 * d / 2 + ln 2 - loggamma (d / 2) - (d / 2) * ln (2 * 3.1415926)
  = KL_const loggamma d.
Proof.
  unfold KL_const.
  rewrite (const_any_pi 3.1415926) by lra.
  rewrite (const_any_pi PI) by apply PI_RGT_0.
  reflexivity.
Qed.

Lemma KLD_combin_single (d const k : R) :
  KLD_combin ive [d] const [k]
  = Ok [KL_first ive d k + KL_second ive d k + const].
Proof. reflexivity. Qed.

Lemma KLD_loop_singles (d const : R) (ks : list R) :
  KLD_loop ive [d] const (map (fun k => [k]) ks)
  = Ok (map (fun k => [KL_first ive d k + KL_second ive d k + const]) ks).
Proof.
  induction ks as [|k ks IH]; [reflexivity|].
  cbn [map KLD_loop]. rewrite KLD_combin_single. cbn [bind].
  rewrite IH. reflexivity.
Qed.

Lemma tensor_of_bag_singles (g : R -> R) (ks : list R) :
  tensor_of_bag (map (fun k => [g k]) ks) = Ok (map g ks).
Proof.
  induction ks as [|k ks IH]; [reflexivity|].
  cbn [map tensor_of_bag]. rewrite IH. reflexivity.
Qed.

(** C1.  For a latent dimensionality d >= 1 and strictly positive
    concentrations, one per example, [compute_KLD] returns per example
    first + second + const with
    first = kappa * Ive(d/2, kappa) / Ive(d/2 - 1, kappa),
    second = (d/2 - 1) * log(kappa) - log(Ive(d/2 - 1, kappa)) and
    const = log(pi)*d/2 + log(2) - logGamma(d/2) - (d/2)*log(2*pi);
    const is one number for the whole call, the same for every example. *)
Theorem compute_KLD_formula
  (self : VmfDiff) (tup : ret_dict) (batch_sz : nat) (ks : list R) :
  (1 <= lat_dim self)%nat ->
  Forall (fun k => 0 < k) ks ->
  rows (tup_kappa tup) = map (fun k => [k]) ks ->
  exists const,
    const = ln PI * INR (lat_dim self) / 2 + ln 2
            - loggamma (INR (lat_dim self) / 2)
            - (INR (lat_dim self) / 2) * ln (2 * PI) /\
    compute_KLD ive loggamma self tup batch_sz
    = Ok (map (fun k =>
                 k * ive (INR (lat_dim self) / 2) k
                   / ive (INR (lat_dim self) / 2 - 1) k
                 + ((INR (lat_dim self) / 2 - 1) * ln k
                    - ln (ive (INR (lat_dim self) / 2 - 1) k))
                 + const) ks).
Proof.
  intros _ _ Hrows.
  exists (KL_const loggamma (INR (lat_dim self))). split; [reflexivity|].
  unfold compute_KLD. rewrite Hrows, code_const_is_KL_const.
  rewrite KLD_loop_singles. cbn [bind].
  apply (tensor_of_bag_singles
           (fun k => KL_first ive (INR (lat_dim self)) k
                     + KL_second ive (INR (lat_dim self)) k
                     + KL_const loggamma (INR (lat_dim self)))).
Qed.

End KLD.

Lemma compute_KLD_formula_witness :
  exists const,
    const = ln PI * INR 2 / 2 + ln 2 - 0 - (INR 2 / 2) * ln (2 * PI) /\
    compute_KLD (fun nu x => nu + x) (fun _ => 0) demo_layer demo_tup 1
    = Ok [1 * (INR 2 / 2 + 1) / (INR 2 / 2 - 1 + 1)
          + ((INR 2 / 2 - 1) * ln 1 - ln (INR 2 / 2 - 1 + 1))
          + const].
Proof.
  apply (compute_KLD_formula (fun nu x => nu + x) (fun _ => 0)
           demo_layer demo_tup 1 [1]).
  - simpl. lia.
  - repeat constructor. lra.
  - reflexivity.
Defined.

(** ** Where a dimension mismatch is caught *)

Section Validation.

Lemma bind_no_assert {A B : Type} (m : result A) (k : A -> result B) :
  m <> Raise AssertionError ->
  (forall a, k a <> Raise AssertionError) ->
  bind m k <> Raise AssertionError.
Proof.
  intros Hm Hk. destruct m as [a|e|]; cbn [bind].
  - apply Hk.
  - intros H. apply Hm. injection H as ->. reflexivity.
  - discriminate.
Qed.

Lemma broadcast_no_assert (e : exn) (f : R -> R -> R) (a b : vec) :
  e <> AssertionError -> broadcast_exn e f a b <> Raise AssertionError.
Proof.
  intros He.
  destruct a as [|x [|x' a]]; destruct b as [|y [|y' b]]; simpl;
    try discriminate;
    try (destruct (length a =? length b)%nat; try discriminate);
    intros H; injection H as H; contradiction.
Qed.

Lemma Linear_forward_no_assert (l : Linear) (x : Tensor2) :
  Linear_forward l x <> Raise AssertionError.
Proof.
  unfold Linear_forward. destruct (ncols x =? in_features l)%nat; discriminate.
Qed.

Lemma estimate_param_no_assert (self : VmfDiff) (latent_code : Tensor2) :
  estimate_param self latent_code <> Raise AssertionError.
Proof.
  unfold estimate_param.
  apply bind_no_assert; [apply Linear_forward_no_assert|]. intros k.
  apply bind_no_assert; [apply Linear_forward_no_assert|]. intros mu.
  discriminate.
Qed.

Lemma estimate_param_shape_error (self : VmfDiff) (latent_code : Tensor2) :
  ncols latent_code <> in_features (func_kappa self) ->
  estimate_param self latent_code = Raise RuntimeError.
Proof.
  intros H. unfold estimate_param, Linear_forward.
  destruct (Nat.eqb_spec (ncols latent_code) (in_features (func_kappa self)));
    [contradiction | reflexivity].
Qed.

Lemma rejection_loop_no_assert (kappa dim b x c : R) (rng : list draw) :
  rejection_loop kappa dim b x c rng <> Raise AssertionError.
Proof.
  induction rng as [|d rng IH]; simpl;
    destruct (Rle_dec (dim / 2) 0); try discriminate.
  destruct (ge_np_log _ _); [discriminate | exact IH].
Qed.

Lemma weight_loop_no_assert (kappa : list R) (dim : Z) (bs : list nat)
  (rng : list draw) :
  weight_loop kappa dim bs rng <> Raise AssertionError.
Proof.
  revert rng; induction bs as [|b bs IH]; intros rng; simpl.
  - discriminate.
  - destruct (nth_error kappa b) as [k|]; [|discriminate].
    apply bind_no_assert; [apply rejection_loop_no_assert|].
    intros [w rng1].
    apply bind_no_assert; [apply IH|]. intros [ws rng2]. discriminate.
Qed.

(** The one explicit check of the module. *)
Lemma sample_ortho_batch_assert (mu : Tensor2) (dim : nat)
  (noise : nat -> nat -> R) :
  _sample_ortho_batch mu dim noise = Raise AssertionError <-> ncols mu <> dim.
Proof.
  unfold _sample_ortho_batch.
  destruct (Nat.eqb_spec (ncols mu) dim) as [Heq|Hne]; cbn [negb].
  - split; [discriminate | contradiction].
  - split; auto.
Qed.

Lemma sample_ortho_batch_ok (mu : Tensor2) (dim : nat)
  (noise : nat -> nat -> R) :
  ncols mu = dim -> exists y, _sample_ortho_batch mu dim noise = Ok y.
Proof.
  intros <-. unfold _sample_ortho_batch. rewrite Nat.eqb_refl. cbn [negb].
  eexists; reflexivity.
Qed.

Lemma sample_cell_no_assert (mu norm : Tensor2) (kappa : list R)
  (rng : list draw) (noise : nat -> nat -> R) :
  sample_cell mu norm kappa rng noise <> Raise AssertionError.
Proof.
  unfold sample_cell.
  apply bind_no_assert; [apply weight_loop_no_assert|]. intros [w rng1].
  destruct (sample_ortho_batch_ok (normalize_rows mu) (ncols mu) noise eq_refl)
    as [y Hy].
  rewrite Hy. discriminate.
Qed.

Lemma sample_loop_no_assert (mu norm : Tensor2) (kappa : list R)
  (ns : list nat) (rng : list draw) (noises : nat -> nat -> nat -> R) :
  sample_loop mu norm kappa ns rng noises <> Raise AssertionError.
Proof.
  revert rng; induction ns as [|n ns IH]; intros rng; simpl.
  - discriminate.
  - apply bind_no_assert; [apply sample_cell_no_assert|]. intros [smp rng1].
    apply bind_no_assert; [apply IH|]. intros [vecs rng2]. discriminate.
Qed.

Lemma tensor_of_bag_no_assert (bag : list vec) :
  tensor_of_bag bag <> Raise AssertionError.
Proof.
  induction bag as [|[|x [|x' r]] bag IH]; simpl; try discriminate.
  apply bind_no_assert; [exact IH|]. discriminate.
Qed.

Variable ive : R -> R -> R.
Variable loggamma : R -> R.

Lemma bessel_no_assert (dim kappa : vec) :
  bessel ive dim kappa <> Raise AssertionError.
Proof.
  unfold bessel, BesselIve.apply, BesselIve.forward.
  apply bind_no_assert.
  - apply bind_no_assert; [apply broadcast_no_assert; discriminate | discriminate].
  - intros [c x]. discriminate.
Qed.

Lemma backward_no_assert (c : BesselIve.ctx) (grad_output : vec) :
  BesselIve.backward ive c grad_output <> Raise AssertionError.
Proof.
  unfold BesselIve.backward. destruct (BesselIve.saved_tensors c) as [dim kappa].
  repeat (apply bind_no_assert;
          [first [apply bessel_no_assert | apply broadcast_no_assert; discriminate]
          | intros ?]).
  discriminate.
Qed.

Lemma compute_KLD_no_assert (self : VmfDiff) (tup : ret_dict) (batch_sz : nat) :
  compute_KLD ive loggamma self tup batch_sz <> Raise AssertionError.
Proof.
  unfold compute_KLD.
  apply bind_no_assert; [|intros; apply tensor_of_bag_no_assert].
  induction (rows (tup_kappa tup)) as [|k rest IH]; simpl; [discriminate|].
  apply bind_no_assert.
  - unfold KLD_combin.
    repeat (apply bind_no_assert;
            [first [apply bessel_no_assert
                   | apply broadcast_no_assert; discriminate]
            | intros ?]).
    discriminate.
  - intros combin. apply bind_no_assert; [exact IH|]. discriminate.
Qed.

Lemma build_bow_rep_no_assert (self : VmfDiff) (lat_code : Tensor2)
  (n_sample : Z) (rng : list draw) (noises : nat -> nat -> nat -> R) :
  build_bow_rep ive loggamma self lat_code n_sample rng noises
  <> Raise AssertionError.
Proof.
  unfold build_bow_rep.
  apply bind_no_assert; [apply estimate_param_no_assert|]. intros tup.
  apply bind_no_assert; [apply compute_KLD_no_assert|]. intros kld.
  destruct (n_sample =? 1)%Z.
  - apply bind_no_assert; [apply sample_cell_no_assert|].
    intros [smp rng1]. discriminate.
  - apply bind_no_assert; [apply sample_loop_no_assert|].
    intros [[|v vecs] rng1]; discriminate.
Qed.

End Validation.

(** C9, as the code has it.  The module does validate a dimension
    explicitly, in one place: [_sample_ortho_batch] asserts that the width of
    [mu] equals its [dim] argument and raises AssertionError exactly when the
    two disagree.  [sample_cell] passes the width of [mu] itself, so the
    assertion cannot fail on that path, and no other operation of the module
    raises AssertionError; a hidden vector of the wrong width is refused by
    the framework's own shape check in [estimate_param]. *)
Theorem dimension_validation_only_in_ortho_batch
  (ive : R -> R -> R) (loggamma : R -> R) :
  (forall mu dim noise,
     _sample_ortho_batch mu dim noise = Raise AssertionError <->
     ncols mu <> dim) /\
  (forall mu norm kappa rng noise,
     sample_cell mu norm kappa rng noise <> Raise AssertionError) /\
  (forall self latent_code,
     estimate_param self latent_code <> Raise AssertionError) /\
  (forall self latent_code,
     ncols latent_code <> in_features (func_kappa self) ->
     estimate_param self latent_code = Raise RuntimeError) /\
  (forall kappa dim rng,
     _sample_weight kappa dim rng <> Raise AssertionError) /\
  (forall kappa dim batch_sz rng,
     _sample_weight_batch kappa dim batch_sz rng <> Raise AssertionError) /\
  (forall c grad_output,
     BesselIve.backward ive c grad_output <> Raise AssertionError) /\
  (forall self tup batch_sz,
     compute_KLD ive loggamma self tup batch_sz <> Raise AssertionError) /\
  (forall self lat_code n_sample rng noises,
     build_bow_rep ive loggamma self lat_code n_sample rng noises
     <> Raise AssertionError).
Proof.
  repeat split.
  - apply sample_ortho_batch_assert.
  - apply sample_ortho_batch_assert.
  - apply sample_cell_no_assert.
  - apply estimate_param_no_assert.
  - apply estimate_param_shape_error.
  - intros kappa dim rng. rewrite _sample_weight_unfold.
    apply rejection_loop_no_assert.
  - intros kappa dim batch_sz rng. apply weight_loop_no_assert.
  - apply backward_no_assert.
  - apply compute_KLD_no_assert.
  - apply build_bow_rep_no_assert.
Qed.

Lemma dimension_validation_only_in_ortho_batch_witness :
  estimate_param demo_layer (mkT2 3 [[1; 2; 3]]) = Raise RuntimeError.
Proof.
  apply (proj1 (proj2 (proj2 (proj2
           (dimension_validation_only_in_ortho_batch
              (fun nu x => nu + x) (fun _ => 0)))))).
  simpl. lia.
Defined.

(** The claim C9 as the specification states it fails: a mean direction with
    two coordinates, handed to [_sample_ortho_batch] with the dimension 3,
    is refused by the [assert] of this module, before any tensor operation
    could check a shape. *)
Lemma ortho_batch_asserts_dimension :
  ncols demo_mu <> 3%nat /\
  _sample_ortho_batch demo_mu 3 demo_noise = Raise AssertionError.
Proof.
  split.
  - simpl. lia.
  - reflexivity.
Qed.

(** * Further properties of the module *)

(** ** The concentration and the auxiliary outputs of [estimate_param] *)

Section EstimatorOutputs.

Lemma ln_2_lt_1 : ln 2 < 1.
Proof.
  rewrite <- (ln_exp 1). apply ln_increasing; [lra|].
  pose proof (exp_ineq1 1 ltac:(lra)). lra.
Qed.

Lemma exp_underflow_bounds : -150 < exp_underflow < -75.
Proof.
  unfold exp_underflow. pose proof ln_lt_2. pose proof ln_2_lt_1. lra.
Qed.

Lemma Softplus_nonneg (x : R) : 0 <= Softplus x.
Proof.
  unfold Softplus. destruct (Rgt_dec x 20) as [H|H]; [lra|].
  destruct (Rle_dec x exp_underflow) as [Hu|Hu]; [lra|].
  rewrite <- ln_1. left. apply ln_increasing; [lra|].
  pose proof (exp_pos x). lra.
Qed.

Lemma Softplus_pos (x : R) : exp_underflow < x -> 0 < Softplus x.
Proof.
  intros Hx. pose proof exp_underflow_bounds as Hb.
  unfold Softplus. destruct (Rgt_dec x 20) as [H|H]; [lra|].
  destruct (Rle_dec x exp_underflow) as [Hu|Hu]; [lra|].
  rewrite <- ln_1. apply ln_increasing; [lra|].
  pose proof (exp_pos x). lra.
Qed.

Lemma Softplus_underflow (x : R) : x <= exp_underflow -> Softplus x = 0.
Proof.
  intros Hx. pose proof exp_underflow_bounds as Hb.
  unfold Softplus. destruct (Rgt_dec x 20) as [H|H]; [lra|].
  destruct (Rle_dec x exp_underflow) as [Hu|Hu]; [reflexivity|lra].
Qed.

Lemma estimate_param_kappa_rows (self : VmfDiff) (latent_code : Tensor2) :
  VmfDiff_wf self ->
  ncols latent_code = hid_dim self ->
  exists ret w0 b0,
    estimate_param self latent_code = Ok ret /\
    weight (func_kappa self) = [w0] /\ bias (func_kappa self) = [b0] /\
    ncols (tup_kappa ret) = 1%nat /\
    rows (tup_kappa ret)
    = map (fun h => [Softplus (dot h w0 + b0)]) (rows latent_code).
Proof.
  intros (Hmu & (Hw & _ & Hb) & Hmu_in & _ & Hk_in & Hk_out) Hcols.
  unfold estimate_param, Linear_forward.
  rewrite Hcols, Hk_in, Hmu_in, !Nat.eqb_refl. cbn [bind].
  rewrite Hk_out in Hw, Hb.
  destruct (weight (func_kappa self)) as [|w0 [|w1 ws]]; try discriminate.
  destruct (bias (func_kappa self)) as [|b0 [|b1 bs]]; try discriminate.
  eexists; exists w0, b0. split; [reflexivity|].
  cbn [tup_kappa t2_map ncols rows].
  repeat split; [exact Hk_out|].
  rewrite map_map. reflexivity.
Qed.

Lemma estimate_param_kappa_nonneg_rows (self : VmfDiff) (latent_code : Tensor2) :
  VmfDiff_wf self ->
  ncols latent_code = hid_dim self ->
  exists ret,
    estimate_param self latent_code = Ok ret /\
    ncols (tup_kappa ret) = 1%nat /\
    length (rows (tup_kappa ret)) = batch_of latent_code /\
    Forall (fun r => exists k, r = [k] /\ 0 <= k) (rows (tup_kappa ret)).
Proof.
  intros Hwf Hcols.
  destruct (estimate_param_kappa_rows self latent_code Hwf Hcols)
    as (ret & w0 & b0 & Hret & _ & _ & Hn & Hrows).
  exists ret. split; [exact Hret|]. split; [exact Hn|].
  rewrite Hrows. split.
  - unfold batch_of. now rewrite length_map.
  - apply Forall_map. apply Forall_forall. intros h _.
    eexists. split; [reflexivity | apply Softplus_nonneg].
Qed.

(** X1.  For a layer as [__init__] builds it and a hidden batch of the
    layer's width, [estimate_param] succeeds and its 'kappa' has one row per
    example, holding the Softplus of the example's projection
    [h . w0 + b0].  That concentration is never negative; it is strictly
    positive when the projection is at least -75, and it is exactly 0 when
    the projection is at most -150 (the exponential has underflowed). *)
Theorem estimate_param_kappa_nonnegative
  (self : VmfDiff) (latent_code : Tensor2) :
  VmfDiff_wf self ->
  ncols latent_code = hid_dim self ->
  exists ret w0 b0,
    estimate_param self latent_code = Ok ret /\
    weight (func_kappa self) = [w0] /\ bias (func_kappa self) = [b0] /\
    ncols (tup_kappa ret) = 1%nat /\
    rows (tup_kappa ret)
    = map (fun h => [Softplus (dot h w0 + b0)]) (rows latent_code) /\
    Forall (fun r => exists k, r = [k] /\ 0 <= k) (rows (tup_kappa ret)) /\
    (forall h, -75 <= dot h w0 + b0 -> 0 < Softplus (dot h w0 + b0)) /\
    (forall h, dot h w0 + b0 <= -150 -> Softplus (dot h w0 + b0) = 0).
Proof.
  intros Hwf Hcols.
  destruct (estimate_param_kappa_rows self latent_code Hwf Hcols)
    as (ret & w0 & b0 & Hret & Hw & Hb & Hn & Hrows).
  pose proof exp_underflow_bounds as Hu.
  exists ret, w0, b0. repeat split; try assumption.
  - rewrite Hrows. apply Forall_map. apply Forall_forall. intros h _.
    eexists. split; [reflexivity | apply Softplus_nonneg].
  - intros h Hh. apply Softplus_pos. lra.
  - intros h Hh. apply Softplus_underflow. lra.
Qed.

Lemma estimate_param_kappa_nonnegative_witness :
  exists ret w0 b0,
    estimate_param demo_layer demo_code = Ok ret /\
    weight (func_kappa demo_layer) = [w0] /\
    bias (func_kappa demo_layer) = [b0] /\
    ncols (tup_kappa ret) = 1%nat /\
    rows (tup_kappa ret)
    = map (fun h => [Softplus (dot h w0 + b0)]) (rows demo_code) /\
    Forall (fun r => exists k, r = [k] /\ 0 <= k) (rows (tup_kappa ret)) /\
    (forall h, -75 <= dot h w0 + b0 -> 0 < Softplus (dot h w0 + b0)) /\
    (forall h, dot h w0 + b0 <= -150 -> Softplus (dot h w0 + b0) = 0).
Proof.
  apply (estimate_param_kappa_nonnegative demo_layer demo_code).
  - unfold VmfDiff_wf, Linear_wf; simpl. repeat split; repeat constructor.
  - reflexivity.
Defined.

(** X2.  Whenever [estimate_param] succeeds, with [proj] the projection
    [func_mu(latent_code)]: 'norm' is a tensor of ones of the shape of the
    projection, and 'redundant_norm' holds for every example the one number
    (|proj_i| - 1)^2, which is never negative and is 0 exactly when the
    projection of that example already has norm 1. *)
Theorem estimate_param_auxiliary_outputs
  (self : VmfDiff) (latent_code proj : Tensor2) (ret : ret_dict) :
  Linear_forward (func_mu self) latent_code = Ok proj ->
  estimate_param self latent_code = Ok ret ->
  ncols (tup_norm ret) = ncols proj /\
  rows (tup_norm ret) = map (fun p => repeat 1 (length p)) (rows proj) /\
  rows (tup_redundant_norm ret)
  = map (fun p => [(norm2 p - 1) ^ 2]) (rows proj) /\
  forall p, In p (rows proj) ->
    0 <= (norm2 p - 1) ^ 2 /\ ((norm2 p - 1) ^ 2 = 0 <-> norm2 p = 1).
Proof.
  intros Hproj Hret. unfold estimate_param in Hret.
  destruct (Linear_forward (func_kappa self) latent_code) as [k| |];
    try discriminate.
  cbn [bind] in Hret. rewrite Hproj in Hret. cbn [bind] in Hret.
  injection Hret as <-. cbn [tup_norm tup_redundant_norm ones_like ncols rows].
  split; [reflexivity|]. split; [|split].
  - apply map_ext. intros p. induction p as [|a p IH]; simpl; congruence.
  - unfold t2_map. cbn [rows]. rewrite !map_map. apply map_ext.
    intros p. unfold tsum. simpl. f_equal. ring.
  - intros p _. set (t := norm2 p - 1).
    assert (Ht : t ^ 2 = t * t) by ring. rewrite Ht.
    split; [nra|]. split; intros H.
    + assert (t = 0) by nra. unfold t in *. lra.
    + assert (t = 0) by (unfold t; lra). nra.
Qed.

End EstimatorOutputs.

Lemma estimate_param_auxiliary_outputs_witness :
  exists ret,
    estimate_param demo_layer demo_code = Ok ret /\
    rows (tup_norm ret) = map (fun p => repeat 1 (length p)) (rows demo_proj) /\
    rows (tup_redundant_norm ret)
    = map (fun p => [(norm2 p - 1) ^ 2]) (rows demo_proj).
Proof.
  eexists. split; [reflexivity|].
  destruct (estimate_param_auxiliary_outputs demo_layer demo_code demo_proj _
              eq_refl eq_refl) as (_ & Hn & Hr & _).
  split; [exact Hn | exact Hr].
Defined.

(** ** Outcomes of the rejection sampler *)

Section SamplerOutcomes.

Lemma sample_weight_low_dim (kappa : R) (dim : Z) (rng : list draw) :
  (dim <= 1)%Z -> _sample_weight kappa dim rng = Raise ValueError.
Proof.
  intros Hdim. rewrite _sample_weight_unfold.
  assert (Hd : IZR (dim - 1) / 2 <= 0).
  { assert (IZR (dim - 1) <= 0) by (apply IZR_le; lia). lra. }
  destruct rng; simpl; destruct (Rle_dec (IZR (dim - 1) / 2) 0);
    try reflexivity; contradiction.
Qed.

(** X3.  [_sample_weight] cannot sample for a dimension below 2: with
    dim <= 1 the Beta parameter (dim - 1)/2 is not positive and the call
    ends in ValueError, whatever the concentration and whatever the state of
    the generator. *)
Theorem sample_weight_low_dim_value_error
  (kappa : R) (dim : Z) (rng : list draw) :
  (dim <= 1)%Z -> _sample_weight kappa dim rng = Raise ValueError.
Proof. exact (sample_weight_low_dim kappa dim rng). Qed.

Lemma sample_weight_low_dim_value_error_witness :
  _sample_weight 1 1 demo_rng = Raise ValueError.
Proof.
  apply (sample_weight_low_dim_value_error 1 1%Z demo_rng). lia.
Defined.


Lemma rejection_loop_never_raises (kappa dim' b x c : R) (rng : list draw)
  (e : exn) :
  0 < dim' -> rejection_loop kappa dim' b x c rng <> Raise e.
Proof.
  intros Hd. assert (Hbeta : ~ dim' / 2 <= 0) by lra.
  induction rng as [|d rng IH]; simpl;
    destruct (Rle_dec (dim' / 2) 0); try contradiction; try discriminate.
  destruct (ge_np_log _ _); [discriminate | exact IH].
Qed.

(** The quantities of the sampler at concentration 2 in dimension 4. *)
Lemma wood_b_2_3 : wood_b 2 3 = 1 / 3.
Proof.
  unfold wood_b. replace (4 * 2 ^ 2 + 3 ^ 2) with (5 * 5) by ring.
  rewrite sqrt_square by lra. field.
Qed.


Lemma candidate_2_3_quarter : candidate (wood_b 2 3) (1 / 4) = 4 / 5.
Proof. rewrite wood_b_2_3. unfold candidate. field. Qed.




Lemma sample_weight_zero_uniform
  (kappa : R) (dim : Z) (z : R) (rng : list draw) :
  (2 <= dim)%Z ->
  _sample_weight kappa dim (mkDraw z 0 :: rng)
  = Ok (candidate (wood_b kappa (IZR (dim - 1))) z, rng).
Proof.
  intros Hdim. pose proof (IZR_pred_ge_1 _ Hdim) as Hd.
  rewrite _sample_weight_unfold. apply rejection_loop_first; [lra|].
  exists [], (mkDraw z 0). repeat split.
  - constructor.
  - left. reflexivity.
Qed.

(** A uniform draw of exactly 0 ends the loop at once: at concentration 2 in
    dimension 4 the round (1/4, 0) returns the candidate 4/5. *)
Lemma sample_weight_accepts_zero_uniform :
  _sample_weight 2 4 [mkDraw (1 / 4) 0] = Ok (4 / 5, []).
Proof.
  rewrite (sample_weight_zero_uniform 2 4 (1 / 4) [] ltac:(lia)).
  change (IZR (4 - 1)) with 3. now rewrite candidate_2_3_quarter.
Qed.



Lemma sample_weight_stream
  (kappa : R) (dim : Z) (rng : list draw) (w : R) (rng' : list draw) :
  _sample_weight kappa dim rng = Ok (w, rng') ->
  (exists used, used <> [] /\ rng = used ++ rng') /\
  forall more, _sample_weight kappa dim (rng ++ more) = Ok (w, rng' ++ more).
Proof.
  intros H. pose proof (sample_weight_needs_dim _ _ _ _ _ H) as Hdim.
  pose proof (IZR_pred_ge_1 _ Hdim) as Hd.
  rewrite _sample_weight_unfold in H.
  apply rejection_loop_first in H; [|lra].
  destruct H as (pre & d & -> & Hpre & Hacc & Hw).
  split.
  - exists (pre ++ [d]). split.
    + destruct pre; discriminate.
    + now rewrite <- app_assoc.
  - intros more. rewrite _sample_weight_unfold.
    apply rejection_loop_first; [lra|].
    exists pre, d. rewrite <- app_assoc. simpl. auto.
Qed.

(** X5.  The result depends only on the rounds that were consumed: at least
    one round is consumed, the generator is left at a suffix of where it
    was, and the same call on a longer stream returns the same weight and
    leaves the additional rounds untouched. *)
Theorem sample_weight_consumes_prefix
  (kappa : R) (dim : Z) (rng : list draw) (w : R) (rng' : list draw) :
  _sample_weight kappa dim rng = Ok (w, rng') ->
  (exists used, used <> [] /\ rng = used ++ rng') /\
  forall more, _sample_weight kappa dim (rng ++ more) = Ok (w, rng' ++ more).
Proof. exact (sample_weight_stream kappa dim rng w rng'). Qed.

Lemma sample_weight_consumes_prefix_witness :
  _sample_weight 1 2 (demo_rng ++ [mkDraw (1 / 3) (1 / 3)])
  = Ok (demo_w, [] ++ [mkDraw (1 / 3) (1 / 3)]).
Proof.
  apply (sample_weight_consumes_prefix 1 2%Z demo_rng demo_w []).
  apply sample_weight_half_returns; [lra | lia | lra].
Defined.

End SamplerOutcomes.

(** ** The envelope of Wood's algorithm *)

Section Envelope.

(** The other closed form of b, and the equation that makes x the point
    where the proposal touches the target: dim' * x = kappa * (1 - x^2). *)
Lemma wood_b_quadratic (kappa dim' : R) :
  0 < kappa -> 1 <= dim' ->
  dim' * (1 - wood_b kappa dim' ^ 2) = 4 * kappa * wood_b kappa dim'.
Proof.
  intros Hk Hd. unfold wood_b.
  set (s := sqrt (4 * kappa ^ 2 + dim' ^ 2)).
  assert (Hs : s * s = 4 * kappa ^ 2 + dim' ^ 2)
    by (apply sqrt_sqrt; nra).
  assert (Hs0 : 0 <= s) by apply sqrt_pos.
  assert (Hden : s + 2 * kappa <> 0) by lra.
  apply Rmult_eq_reg_r with ((s + 2 * kappa) ^ 2);
    [|apply pow_nonzero; exact Hden].
  field_simplify; [|exact Hden|exact Hden].
  replace (s ^ 2) with (s * s) by ring. rewrite Hs. field.
Qed.

Lemma wood_x_mode (kappa dim' : R) :
  0 < kappa -> 1 <= dim' ->
  dim' * wood_x kappa dim' = kappa * (1 - wood_x kappa dim' ^ 2).
Proof.
  intros Hk Hd. pose proof (wood_b_quadratic kappa dim' Hk Hd) as Hq.
  destruct (wood_b_bounds kappa dim' Hk Hd) as [Hb0 Hb1].
  unfold wood_x. set (b := wood_b kappa dim') in *.
  apply Rmult_eq_reg_r with ((1 + b) ^ 2); [|apply pow_nonzero; lra].
  field_simplify; [|lra|lra]. nra.
Qed.

End Envelope.

(** X6.  For kappa > 0, dim >= 2 and any Beta draw z inside (0, 1), the
    quantity that [_sample_weight] compares with log(u),
    kappa w + dim' log(1 - x w) - c, is never positive, and it is 0 for
    z = 1/2 (where w = x): the acceptance probability never exceeds 1 and
    the proposal touches the target. *)
Theorem acceptance_threshold_nonpositive (kappa : R) (dim : Z) (z : R) :
  0 < kappa -> (2 <= dim)%Z -> 0 < z < 1 ->
  kappa * candidate (wood_b kappa (IZR (dim - 1))) z
  + IZR (dim - 1)
    * ln (1 - wood_x kappa (IZR (dim - 1))
              * candidate (wood_b kappa (IZR (dim - 1))) z)
  - wood_c kappa (IZR (dim - 1)) <= 0
  /\
  kappa * candidate (wood_b kappa (IZR (dim - 1))) (1 / 2)
  + IZR (dim - 1)
    * ln (1 - wood_x kappa (IZR (dim - 1))
              * candidate (wood_b kappa (IZR (dim - 1))) (1 / 2))
  - wood_c kappa (IZR (dim - 1)) = 0.
Proof.
  intros Hk Hdim Hz. pose proof (IZR_pred_ge_1 _ Hdim) as Hd.
  set (d := IZR (dim - 1)) in *.
  destruct (wood_b_bounds kappa d Hk Hd) as [Hb0 Hb1].
  destruct (wood_x_bounds kappa d Hk Hd) as [Hx0 Hx1].
  pose proof (wood_x_mode kappa d Hk Hd) as Hmode.
  split.
  - destruct (candidate_bounds (wood_b kappa d) z (conj Hb0 Hb1) Hz)
      as [Hw0 Hw1].
    unfold wood_c.
    set (x := wood_x kappa d) in *.
    set (w := candidate (wood_b kappa d) z) in *.
    assert (Hxx : 0 < 1 - x ^ 2) by nra.
    assert (Hxw : 0 < 1 - x * w) by nra.
    set (t := (1 - x * w) / (1 - x ^ 2)).
    assert (Ht : 0 < t) by (apply Rdiv_lt_0_compat; assumption).
    assert (Hln : ln (1 - x * w) = ln t + ln (1 - x ^ 2)).
    { rewrite <- ln_mult by assumption. f_equal. unfold t. field. lra. }
    assert (Ht1 : d * (t - 1) = kappa * (x - w)).
    { replace (d * (t - 1)) with ((d * x) * ((x - w) / (1 - x ^ 2)))
        by (unfold t; field; lra).
      rewrite Hmode. field. lra. }
    pose proof (ln_le_minus_1 t Ht) as Hle.
    assert (Hdl : d * ln t <= d * (t - 1))
      by (apply Rmult_le_compat_l; lra).
    rewrite Hln. lra.
  - rewrite candidate_half by exact Hb0.
    fold (wood_x kappa d). unfold wood_c.
    replace (wood_x kappa d * wood_x kappa d) with (wood_x kappa d ^ 2) by ring.
    ring.
Qed.

Lemma acceptance_threshold_nonpositive_witness :
  1 * candidate (wood_b 1 (IZR (2 - 1))) (1 / 4)
  + IZR (2 - 1)
    * ln (1 - wood_x 1 (IZR (2 - 1)) * candidate (wood_b 1 (IZR (2 - 1))) (1 / 4))
  - wood_c 1 (IZR (2 - 1)) <= 0.
Proof.
  apply (acceptance_threshold_nonpositive 1 2%Z (1 / 4)); [lra | lia | lra].
Defined.

(** X7.  The three formulas of [_sample_weight] are the ones its comments
    give in terms of kdiv = kappa / dim':
    b = 1 / (sqrt(4 kdiv^2 + 1) + 2 kdiv),
    c = dim' (kdiv x + log(1 - x^2)), and the tested quantity is
    dim' (kdiv (w - x) + log(1 - x w) - log(1 - x^2)). *)
Theorem sample_weight_matches_comments (kappa dim' w : R) :
  0 < kappa -> 0 < dim' ->
  wood_b kappa dim'
  = 1 / (sqrt (4 * (kappa / dim') ^ 2 + 1) + 2 * (kappa / dim')) /\
  wood_c kappa dim'
  = dim' * (kappa / dim' * wood_x kappa dim' + ln (1 - wood_x kappa dim' ^ 2)) /\
  kappa * w + dim' * ln (1 - wood_x kappa dim' * w) - wood_c kappa dim'
  = dim' * (kappa / dim' * (w - wood_x kappa dim')
            + ln (1 - wood_x kappa dim' * w)
            - ln (1 - wood_x kappa dim' ^ 2)).
Proof.
  intros Hk Hd. split; [|split].
  - unfold wood_b.
    assert (Hs : sqrt (4 * kappa ^ 2 + dim' ^ 2)
                 = dim' * sqrt (4 * (kappa / dim') ^ 2 + 1)).
    { rewrite <- (sqrt_pow2 dim') at 2 by lra.
      rewrite <- sqrt_mult_alt by (apply pow2_ge_0).
      f_equal. field. lra. }
    rewrite Hs.
    assert (Hpos : 0 < sqrt (4 * (kappa / dim') ^ 2 + 1)).
    { apply sqrt_lt_R0. pose proof (pow2_ge_0 (kappa / dim')). lra. }
    assert (Hkd : 0 < kappa / dim') by (apply Rdiv_lt_0_compat; lra).
    field. split; [lra|].
    replace (sqrt (4 * (kappa / dim') ^ 2 + 1) * dim' + 2 * kappa)
      with (dim' * (sqrt (4 * (kappa / dim') ^ 2 + 1) + 2 * (kappa / dim')))
      by (field; lra).
    apply Rmult_integral_contrapositive_currified; lra.
  - unfold wood_c. field. lra.
  - unfold wood_c. field. lra.
Qed.

Lemma sample_weight_matches_comments_witness :
  wood_b 1 1 = 1 / (sqrt (4 * (1 / 1) ^ 2 + 1) + 2 * (1 / 1)).
Proof.
  apply (sample_weight_matches_comments 1 1 0); lra.
Defined.

(** ** The batch of weights and the generator *)

Section BatchAccounting.

Lemma weight_loop_accounting (kappa : list R) (dim : Z) (bs : list nat)
  (rng : list draw) (ws : list R) (rng' : list draw) :
  weight_loop kappa dim bs rng = Ok (ws, rng') ->
  Forall (fun b => (b < length kappa)%nat) bs /\
  exists used, rng = used ++ rng' /\ (length bs <= length used)%nat.
Proof.
  revert rng ws; induction bs as [|b bs IH]; intros rng ws H.
  - simpl in H. injection H as _ <-. split; [constructor|].
    exists []. split; [reflexivity | simpl; lia].
  - apply weight_loop_inv in H.
    destruct H as (k & w & ws' & rng1 & Hk & Hw & Hrest & _).
    destruct (IH _ _ Hrest) as (Hbs & used' & Hu' & Hlen').
    destruct (sample_weight_stream _ _ _ _ _ Hw)
      as ((used & Hne & Hu) & _).
    split.
    + constructor; [|exact Hbs]. apply nth_error_Some. congruence.
    + exists (used ++ used'). split.
      * rewrite <- app_assoc. congruence.
      * rewrite length_app. destruct used; [congruence|]. simpl. lia.
Qed.

End BatchAccounting.

(** X8.  When [_sample_weight_batch] returns, it returns one weight per
    example, the concentration array had an entry for every example, and
    the generator is left at a suffix of where it was, at least one round
    further for every example. *)
Theorem sample_weight_batch_accounting
  (kappa : list R) (dim : Z) (batch_sz : nat) (rng : list draw)
  (ws : list R) (rng' : list draw) :
  _sample_weight_batch kappa dim batch_sz rng = Ok (ws, rng') ->
  length ws = batch_sz /\
  (batch_sz <= length kappa)%nat /\
  exists used, rng = used ++ rng' /\ (batch_sz <= length used)%nat.
Proof.
  unfold _sample_weight_batch. intros H.
  pose proof (weight_loop_length _ _ _ _ _ _ H) as Hlen.
  destruct (weight_loop_accounting _ _ _ _ _ _ H) as (Hbs & used & Hu & Hl).
  rewrite length_seq in Hlen, Hl.
  split; [exact Hlen|]. split.
  - destruct batch_sz as [|n]; [lia|].
    rewrite Forall_forall in Hbs.
    assert (Hin : In n (seq 0 (S n))) by (apply in_seq; lia).
    specialize (Hbs n Hin). simpl in Hbs. lia.
  - exists used. auto.
Qed.

Lemma sample_weight_batch_accounting_witness :
  length [demo_w] = 1%nat /\
  (1 <= length [1])%nat /\
  exists used, demo_rng = used ++ [] /\ (1 <= length used)%nat.
Proof.
  exact (sample_weight_batch_accounting [1] 2%Z 1 demo_rng [demo_w] []
           demo_weights).
Defined.

(** ** Edge cases and shape of [sample_cell] *)

Section CellEdges.

(** X9.  [sample_cell] cannot sample on a latent space of fewer than two
    coordinates: for a batch that is not empty the call ends in the
    ValueError of the first Beta draw (in the IndexError of [kappa[0]] when
    the concentration array is empty), before any normal vector is drawn. *)
Theorem sample_cell_low_dim_fails
  (mu norm : Tensor2) (kappa : list R) (rng : list draw)
  (noise : nat -> nat -> R) :
  rows mu <> [] -> (ncols mu <= 1)%nat ->
  (kappa <> [] -> sample_cell mu norm kappa rng noise = Raise ValueError) /\
  (kappa = [] -> sample_cell mu norm kappa rng noise = Raise IndexError).
Proof.
  intros Hrows Hcols. unfold sample_cell, _sample_weight_batch, batch_of.
  destruct (rows mu) as [|m0 rest] eqn:E; [congruence|].
  cbn [length seq weight_loop]. split; intros Hk.
  - destruct kappa as [|k kappa]; [congruence|]. cbn [nth_error].
    rewrite sample_weight_low_dim by lia. reflexivity.
  - subst kappa. reflexivity.
Qed.

Lemma sample_cell_low_dim_fails_witness :
  sample_cell (mkT2 1 [[1]]) (ones 1 1) [1] demo_rng demo_noise
  = Raise ValueError.
Proof.
  apply (sample_cell_low_dim_fails (mkT2 1 [[1]]) (ones 1 1) [1] demo_rng
           demo_noise).
  - discriminate.
  - simpl. lia.
  - discriminate.
Defined.

Lemma combine_rows_length (mu : Tensor2) i m w r (noise : nat -> nat -> R) :
  wf mu -> nth_error (rows mu) i = Some m ->
  r = combine
        (divs (residual (divs m (norm2 m)) (noise_row noise (ncols mu) i))
           (norm2 (residual (divs m (norm2 m)) (noise_row noise (ncols mu) i))))
        (divs m (norm2 m)) w ->
  length r = ncols mu.
Proof.
  intros Hwf Hm ->.
  pose proof (Forall_nth_error_elim _ _ _ _ Hwf Hm) as Hml. cbv beta in Hml.
  rewrite combine_length; rewrite !divs_length; [assumption|].
  rewrite residual_length; rewrite noise_row_length, ?divs_length; auto.
Qed.

(** X10.  When [sample_cell] returns, the result has one leading entry, one
    row per example and [lat_dim] coordinates per row, and the generator is
    left at a suffix of where it was, at least one round further for every
    example. *)
Theorem sample_cell_shape
  (mu norm : Tensor2) (kappa : list R) (rng : list draw)
  (noise : nat -> nat -> R) (out : list Tensor2) (rng' : list draw) :
  wf mu ->
  sample_cell mu norm kappa rng noise = Ok (out, rng') ->
  (exists s,
     out = [s] /\
     length (rows s) = batch_of mu /\
     Forall (fun r : vec => length r = ncols mu) (rows s)) /\
  exists used, rng = used ++ rng' /\ (batch_of mu <= length used)%nat.
Proof.
  intros Hwf Hcell.
  destruct (sample_cell_inv _ _ _ _ _ _ _ Hcell) as (ws & v & Hws & Hv & _).
  destruct (sample_cell_rows mu norm kappa rng noise ws rng' v Hwf Hws Hv)
    as (s & Hcell' & Hlen & _ & Hrows).
  rewrite Hcell in Hcell'. injection Hcell' as ->.
  split.
  - exists s. split; [reflexivity|]. split; [exact Hlen|].
    apply Forall_forall. intros r Hr.
    apply In_nth_error in Hr. destruct Hr as [i Hi].
    assert (Hib : (i < batch_of mu)%nat).
    { rewrite <- Hlen. apply nth_error_Some. congruence. }
    destruct (nth_error (rows mu) i) as [m|] eqn:Hm.
    2:{ apply nth_error_None in Hm. unfold batch_of in Hib. lia. }
    destruct (Hrows i m Hm) as (w & _ & _ & Hsi).
    rewrite Hi in Hsi. injection Hsi as Hr.
    eapply combine_rows_length; eassumption.
  - unfold _sample_weight_batch in Hws.
    destruct (weight_loop_accounting _ _ _ _ _ _ Hws) as (_ & used & Hu & Hl).
    rewrite length_seq in Hl. exists used. auto.
Qed.

Lemma sample_cell_shape_witness :
  exists s,
    sample_cell demo_mu (ones 1 2) [1] demo_rng demo_noise = Ok ([s], []) /\
    length (rows s) = 1%nat /\
    Forall (fun r : vec => length r = 2%nat) (rows s).
Proof.
  destruct (sample_cell_rows demo_mu (ones 1 2) [1] demo_rng demo_noise
              [demo_w] [] demo_v demo_mu_wf demo_weights demo_ortho)
    as (s & Hcell & _).
  exists s. split; [exact Hcell|].
  destruct (sample_cell_shape demo_mu (ones 1 2) [1] demo_rng demo_noise
              [s] [] demo_mu_wf Hcell) as ((s' & Hs & Hlen & Hw) & _).
  injection Hs as <-. split; assumption.
Defined.

Lemma zip_with_nil_r {A B C : Type} (f : A -> B -> C) (l : list A) :
  zip_with f l [] = [].
Proof. destruct l; reflexivity. Qed.

(** X11.  On an empty batch [sample_cell] succeeds without reading the
    concentration array or the generator: it returns a tensor without rows
    and leaves the generator where it was. *)
Theorem sample_cell_empty_batch
  (mu norm : Tensor2) (kappa : list R) (rng : list draw)
  (noise : nat -> nat -> R) :
  rows mu = [] ->
  exists s,
    sample_cell mu norm kappa rng noise = Ok ([s], rng) /\ rows s = [].
Proof.
  intros Hrows. unfold sample_cell, _sample_weight_batch, batch_of.
  rewrite Hrows. cbn [length seq weight_loop bind].
  destruct (sample_ortho_batch_ok (normalize_rows mu) (ncols mu) noise eq_refl)
    as [y Hy].
  rewrite Hy. cbn [bind]. eexists. split; [reflexivity|].
  unfold t2_zip, normalize_rows. cbn [rows]. rewrite Hrows.
  cbn [map zip_with]. apply zip_with_nil_r.
Qed.

Lemma sample_cell_empty_batch_witness :
  exists s,
    sample_cell (mkT2 2 []) (ones 0 2) [] [] demo_noise = Ok ([s], []) /\
    rows s = [].
Proof.
  apply (sample_cell_empty_batch (mkT2 2 []) (ones 0 2) [] [] demo_noise).
  reflexivity.
Defined.

End CellEdges.

(** ** Edge cases of the orthogonal direction *)

Section OrthoEdges.

Lemma proj_rows_length (mu : Tensor2) (dim : nat) (noise : nat -> nat -> R) :
  length (zip_with scale (rows mu)
            (zip_with dot (rows mu) (randn noise (batch_of mu) dim)))
  = batch_of mu.
Proof.
  rewrite !zip_with_length_min, randn_length. unfold batch_of. lia.
Qed.

(** X12.  On a latent space of one coordinate and a batch of another size
    than 1, [v.squeeze()] loses the example axis of the normal draw and the
    subtraction broadcasts: what [_sample_ortho_batch] returns is a
    batch x batch tensor, not a batch x 1 one. *)
Theorem sample_ortho_batch_dim1_shape
  (mu : Tensor2) (noise : nat -> nat -> R) :
  ncols mu = 1%nat -> batch_of mu <> 1%nat ->
  exists y,
    _sample_ortho_batch mu 1 noise = Ok y /\
    ncols y = batch_of mu /\
    length (rows y) = batch_of mu /\
    Forall (fun r : vec => length r = batch_of mu) (rows y).
Proof.
  intros Hcols Hb. unfold _sample_ortho_batch, GVar, squeeze_sub.
  rewrite Hcols. cbn [Nat.eqb negb andb].
  destruct (Nat.eqb_spec (batch_of mu) 1) as [|_]; [contradiction|].
  cbn [negb]. eexists. split; [reflexivity|]. cbn [ncols rows].
  split; [reflexivity|]. split.
  - rewrite !length_map. apply proj_rows_length.
  - apply Forall_map. apply Forall_map. apply Forall_forall. intros p _.
    unfold divs. now rewrite !length_map, randn_length.
Qed.

Lemma sample_ortho_batch_dim1_shape_witness :
  exists y,
    _sample_ortho_batch (mkT2 1 [[1]; [1]]) 1 demo_noise = Ok y /\
    ncols y = 2%nat /\
    length (rows y) = 2%nat /\
    Forall (fun r : vec => length r = 2%nat) (rows y).
Proof.
  apply (sample_ortho_batch_dim1_shape (mkT2 1 [[1]; [1]]) demo_noise).
  - reflexivity.
  - discriminate.
Defined.

(** X13.  In every other case ([dim] the width of [mu], and [dim <> 1] or a
    batch of exactly one example) the result has the shape of [mu]: one row
    per example, [dim] coordinates per row. *)
Theorem sample_ortho_batch_regular_shape
  (mu : Tensor2) (noise : nat -> nat -> R) :
  wf mu -> (ncols mu <> 1%nat \/ batch_of mu = 1%nat) ->
  exists y,
    _sample_ortho_batch mu (ncols mu) noise = Ok y /\
    ncols y = ncols mu /\
    length (rows y) = batch_of mu /\
    Forall (fun r : vec => length r = ncols mu) (rows y).
Proof.
  intros Hwf Hreg.
  assert (Hc : ((ncols mu =? 1)%nat && negb (batch_of mu =? 1)%nat) = false).
  { destruct (Nat.eqb_spec (ncols mu) 1); [|reflexivity].
    destruct (Nat.eqb_spec (batch_of mu) 1); [reflexivity | lia]. }
  destruct (sample_ortho_batch_regular mu noise Hc) as (y & Hy & Hlen & Hrows).
  exists y. split; [exact Hy|]. split.
  - unfold _sample_ortho_batch, GVar, squeeze_sub in Hy.
    rewrite Nat.eqb_refl, Hc in Hy. cbn [negb] in Hy.
    injection Hy as <-. reflexivity.
  - split; [exact Hlen|].
    apply Forall_forall. intros r Hr.
    apply In_nth_error in Hr. destruct Hr as [i Hi].
    assert (Hib : (i < batch_of mu)%nat).
    { rewrite <- Hlen. apply nth_error_Some. congruence. }
    destruct (nth_error (rows mu) i) as [m|] eqn:Hm.
    2:{ apply nth_error_None in Hm. unfold batch_of in Hib. lia. }
    rewrite (Hrows i m Hm) in Hi. injection Hi as <-.
    pose proof (Forall_nth_error_elim _ _ _ _ Hwf Hm) as Hml. cbv beta in Hml.
    rewrite divs_length, residual_length; rewrite noise_row_length; auto.
Qed.

Lemma sample_ortho_batch_regular_shape_witness :
  exists y,
    _sample_ortho_batch demo_mu (ncols demo_mu) demo_noise = Ok y /\
    ncols y = ncols demo_mu /\
    length (rows y) = batch_of demo_mu /\
    Forall (fun r : vec => length r = ncols demo_mu) (rows y).
Proof.
  apply (sample_ortho_batch_regular_shape demo_mu demo_noise).
  - exact demo_mu_wf.
  - left. simpl. lia.
Defined.

End OrthoEdges.

(** ** The one-vector variant [_sample_orthonormal_to] *)

Section OrthonormalTo.

Lemma zip_with_repeat_len (f : R -> R -> R) (v : vec) (s : R) :
  zip_with f v (repeat s (length v)) = map (fun x => f x s) v.
Proof. now apply zip_with_repeat_r. Qed.

Lemma sample_orthonormal_to_value (mu : vec) (dim : nat) (noise : nat -> R) :
  length mu = dim ->
  _sample_orthonormal_to mu dim noise
  = Ok (divs (vsub (map noise (seq 0 dim))
                (scale mu (dot mu (map noise (seq 0 dim)) / norm2 mu)))
          (norm2 (vsub (map noise (seq 0 dim))
                    (scale mu (dot mu (map noise (seq 0 dim)) / norm2 mu))))).
Proof.
  intros Hlen. unfold _sample_orthonormal_to, GVar.
  rewrite length_map, length_seq, Hlen, Nat.eqb_refl. cbn [negb].
  unfold vmul, vdiv. rewrite (zip_with_repeat_r Rmult mu _ dim Hlen).
  rewrite zip_with_repeat_len. reflexivity.
Qed.

(** X14.  For a vector [mu] of [dim] entries that is not zero and a normal
    draw that leaves a nonzero difference, [_sample_orthonormal_to] returns
    a vector of norm 1 whose dot product with [mu] is
    <mu, v> (1 - |mu|) / |v - mu <mu, v> / |mu||: the component along [mu]
    is divided by |mu| once, so the result is orthogonal to [mu] when [mu]
    has norm 1. *)
Theorem sample_orthonormal_to_unit (mu : vec) (dim : nat) (noise : nat -> R) :
  length mu = dim ->
  norm2 mu <> 0 ->
  norm2 (vsub (map noise (seq 0 dim))
           (scale mu (dot mu (map noise (seq 0 dim)) / norm2 mu))) <> 0 ->
  exists y,
    _sample_orthonormal_to mu dim noise = Ok y /\
    norm2 y = 1 /\
    dot y mu
    = dot mu (map noise (seq 0 dim)) * (1 - norm2 mu)
      / norm2 (vsub (map noise (seq 0 dim))
                 (scale mu (dot mu (map noise (seq 0 dim)) / norm2 mu))) /\
    (norm2 mu = 1 -> dot y mu = 0).
Proof.
  intros Hlen Hmu Hres.
  rewrite (sample_orthonormal_to_value mu dim noise Hlen).
  set (v := map noise (seq 0 dim)) in *.
  set (o := vsub v (scale mu (dot mu v / norm2 mu))) in *.
  assert (Hv : length v = length mu)
    by (unfold v; now rewrite length_map, length_seq).
  assert (Hdot : dot o mu = dot mu v * (1 - norm2 mu)).
  { unfold o. rewrite dot_vsub_l;
      [| now rewrite scale_length | now rewrite scale_length].
    rewrite dot_scale_l, <- norm2_sq, (dot_comm v mu). field. exact Hmu. }
  eexists. split; [reflexivity|]. split; [now apply norm2_divs_self|].
  split.
  - now rewrite dot_divs_l, Hdot.
  - intros H1. rewrite dot_divs_l, Hdot, H1. unfold Rdiv. ring.
Qed.

Lemma sample_orthonormal_to_unit_witness :
  exists y,
    _sample_orthonormal_to [1; 0] 2 (demo_noise 0%nat) = Ok y /\
    norm2 y = 1 /\ dot y [1; 0] = 0.
Proof.
  assert (Hn : norm2 [1; 0] = 1).
  { unfold norm2, tsum; simpl.
    replace (1 * 1 + (0 * 0 + 0)) with 1 by ring. apply sqrt_1. }
  destruct (sample_orthonormal_to_unit [1; 0] 2 (demo_noise 0%nat))
    as (y & Hy & Hu & _ & Ho).
  - reflexivity.
  - rewrite Hn. lra.
  - rewrite Hn.
    unfold norm2, vsub, scale, dot, tsum, demo_noise; simpl.
    replace ((0 - 1 * ((1 * 0 + (0 * 1 + 0)) / 1))
             * (0 - 1 * ((1 * 0 + (0 * 1 + 0)) / 1))
             + ((1 - 0 * ((1 * 0 + (0 * 1 + 0)) / 1))
                * (1 - 0 * ((1 * 0 + (0 * 1 + 0)) / 1)) + 0))
      with 1 by field.
    rewrite sqrt_1. lra.
  - exists y. split; [exact Hy|]. split; [exact Hu | exact (Ho Hn)].
Defined.

(** X15.  For a mean direction of norm 1 the two variants agree: the batch
    version on the batch of the one example [mu] returns the one row that
    [_sample_orthonormal_to] returns for [mu] on the same normal draw. *)
Theorem ortho_variants_agree (mu : vec) (dim : nat) (noise : nat -> nat -> R) :
  length mu = dim -> norm2 mu = 1 ->
  exists y,
    _sample_orthonormal_to mu dim (noise 0%nat) = Ok y /\
    _sample_ortho_batch (mkT2 dim [mu]) dim noise = Ok (mkT2 dim [y]).
Proof.
  intros Hlen Hmu.
  rewrite (sample_orthonormal_to_value mu dim (noise 0%nat) Hlen).
  eexists. split; [reflexivity|].
  unfold _sample_ortho_batch, GVar, squeeze_sub, batch_of.
  cbn [ncols rows length]. rewrite Nat.eqb_refl. cbn [negb andb Nat.eqb].
  rewrite Bool.andb_false_r. cbn [ncols rows randn seq map zip_with].
  rewrite Hmu. unfold Rdiv. rewrite Rinv_1, !Rmult_1_r.
  reflexivity.
Qed.

End OrthonormalTo.

Lemma ortho_variants_agree_witness :
  exists y,
    _sample_orthonormal_to [1; 0] 2 (demo_noise 0%nat) = Ok y /\
    _sample_ortho_batch (mkT2 2 [[1; 0]]) 2 demo_noise = Ok (mkT2 2 [y]).
Proof.
  apply (ortho_variants_agree [1; 0] 2 demo_noise).
  - reflexivity.
  - exact (Forall_inv demo_mu_unit).
Defined.

(** ** The backward pass is linear in the upstream gradient *)

Section BackwardLinear.

Variable ive : R -> R -> R.

Lemma backward_factor (nu kappa : vec) :
  compat nu kappa ->
  exists D,
    length D = blen nu kappa /\
    forall grad_output,
      BesselIve.backward ive (BesselIve.mkCtx (nu, kappa)) grad_output
      = (grad <- broadcast Rmult grad_output D ;; Ok (None, grad)).
Proof.
  intros Hc. destruct (blen_cases nu kappa Hc) as (Hn & Hk & Hnk).
  set (L := blen nu kappa) in *.
  assert (Hn1 : length (map (fun d => d - 1) nu) = L
                \/ length (map (fun d => d - 1) nu) = 1%nat)
    by now rewrite length_map.
  assert (Hnk1 : length (map (fun d => d - 1) nu) = L \/ length kappa = L)
    by now rewrite length_map.
  destruct (forward_pointwise ive _ kappa L Hn1 Hk Hnk1)
    as (lo & _ & Hlo & Hlo_len & _).
  destruct (forward_pointwise ive nu kappa L Hn Hk Hnk)
    as (hi & _ & Hhi & Hhi_len & _).
  destruct (broadcast_pointwise RuntimeError Rplus nu kappa L Hn Hk Hnk)
    as (dk & Hdk & Hdk_len & _).
  destruct (broadcast_pointwise RuntimeError Rmult hi dk L)
    as (t1 & Ht1 & Ht1_len & _); auto.
  destruct (broadcast_pointwise RuntimeError Rdiv t1 kappa L)
    as (t2 & Ht2 & Ht2_len & _); auto.
  destruct (broadcast_pointwise RuntimeError Rminus lo t2 L)
    as (t3 & Ht3 & Ht3_len & _); auto.
  exists t3. split; [exact Ht3_len|]. intros g.
  unfold BesselIve.backward. cbn [BesselIve.saved_tensors].
  rewrite Hlo. cbn [bind]. rewrite Hhi. cbn [bind].
  rewrite Hdk. cbn [bind]. rewrite Ht1. cbn [bind].
  rewrite Ht2. cbn [bind]. rewrite Ht3. cbn [bind]. reflexivity.
Qed.

(** X16.  For an order and an argument that broadcast against each other
    there is one tensor [D], fixed by the two alone, with which the
    backward pass multiplies the upstream gradient entry by entry:
    [backward] returns [(None, grad_output * D)] for every upstream gradient
    of the output's shape, so the returned gradient is linear in the
    upstream one and zero when that is zero. *)
Theorem bessel_backward_linear (nu kappa : vec) :
  compat nu kappa ->
  exists D,
    length D = blen nu kappa /\
    forall grad_output,
      length grad_output = blen nu kappa ->
      BesselIve.backward ive (BesselIve.mkCtx (nu, kappa)) grad_output
      = Ok (None, vmul grad_output D).
Proof.
  intros Hc. destruct (backward_factor nu kappa Hc) as (D & HD & Hbw).
  exists D. split; [exact HD|]. intros g Hg.
  rewrite Hbw, broadcast_same by congruence. reflexivity.
Qed.

End BackwardLinear.

Lemma bessel_backward_linear_witness :
  exists D,
    length D = 1%nat /\
    forall grad_output,
      length grad_output = 1%nat ->
      BesselIve.backward (fun nu x => nu + x) (BesselIve.mkCtx ([3], [2]))
        grad_output
      = Ok (None, vmul grad_output D).
Proof.
  apply (bessel_backward_linear (fun nu x => nu + x) [3] [2]).
  left. reflexivity.
Defined.

(** ** The pieces put together: [build_bow_rep] *)

Section Pipeline.

Variable ive : R -> R -> R.
Variable loggamma : R -> R.

Lemma singleton_rows (P : R -> Prop) (l : list vec) :
  Forall (fun r => exists k, r = [k] /\ P k) l ->
  exists ks, l = map (fun k => [k]) ks /\ Forall P ks.
Proof.
  induction 1 as [|r l (k & -> & Hk) _ (ks & -> & Hks)].
  - exists []. split; [reflexivity | constructor].
  - exists (k :: ks). split; [reflexivity | now constructor].
Qed.

Lemma compute_KLD_singles (self : VmfDiff) (tup : ret_dict) (batch_sz : nat)
  (ks : list R) :
  rows (tup_kappa tup) = map (fun k => [k]) ks ->
  compute_KLD ive loggamma self tup batch_sz
  = Ok (map (fun k => KL_first ive (INR (lat_dim self)) k
                      + KL_second ive (INR (lat_dim self)) k
                      + KL_const loggamma (INR (lat_dim self))) ks).
Proof.
  intros Hrows. unfold compute_KLD.
  rewrite Hrows, code_const_is_KL_const, KLD_loop_singles. cbn [bind].
  apply (tensor_of_bag_singles
           (fun k => KL_first ive (INR (lat_dim self)) k
                     + KL_second ive (INR (lat_dim self)) k
                     + KL_const loggamma (INR (lat_dim self)))).
Qed.

Lemma kld_after_estimate
  (self : VmfDiff) (latent_code : Tensor2) (batch_sz : nat) :
  VmfDiff_wf self ->
  ncols latent_code = hid_dim self ->
  exists ret ks kld,
    estimate_param self latent_code = Ok ret /\
    rows (tup_kappa ret) = map (fun k => [k]) ks /\
    Forall (fun k => 0 <= k) ks /\
    compute_KLD ive loggamma self ret batch_sz = Ok kld /\
    length kld = batch_of latent_code /\
    forall i k, nth_error ks i = Some k -> 0 < k ->
      nth_error kld i
      = Some (KL_first ive (INR (lat_dim self)) k
              + KL_second ive (INR (lat_dim self)) k
              + KL_const loggamma (INR (lat_dim self))).
Proof.
  intros Hwf Hcols.
  destruct (estimate_param_kappa_nonneg_rows self latent_code Hwf Hcols)
    as (ret & Hret & _ & Hlen & Hrows).
  destruct (singleton_rows (fun k => 0 <= k) _ Hrows) as (ks & Hks & Hpos).
  exists ret, ks. eexists. split; [exact Hret|]. split; [exact Hks|].
  split; [exact Hpos|]. split; [apply compute_KLD_singles; exact Hks|].
  split.
  - rewrite length_map. rewrite Hks, length_map in Hlen. exact Hlen.
  - intros i k Hi _.
    apply (map_nth_error
             (fun k => KL_first ive (INR (lat_dim self)) k
                       + KL_second ive (INR (lat_dim self)) k
                       + KL_const loggamma (INR (lat_dim self))) i ks Hi).
Qed.

(** X17.  On the parameters that [estimate_param] produces for a layer as
    [__init__] builds it, [compute_KLD] never raises and returns one entry
    per example of the batch, whatever [batch_sz] it is handed.  The
    concentrations are never negative; for every example whose
    concentration is strictly positive the entry is the sum of the three
    terms of the KL formula.  (Where the concentration has underflowed to 0
    the code takes the logarithm of 0; nothing is stated about that
    entry.) *)
Theorem compute_KLD_after_estimate_param
  (self : VmfDiff) (latent_code : Tensor2) (batch_sz : nat) :
  VmfDiff_wf self ->
  ncols latent_code = hid_dim self ->
  exists ret ks kld,
    estimate_param self latent_code = Ok ret /\
    rows (tup_kappa ret) = map (fun k => [k]) ks /\
    Forall (fun k => 0 <= k) ks /\
    compute_KLD ive loggamma self ret batch_sz = Ok kld /\
    length kld = batch_of latent_code /\
    forall i k, nth_error ks i = Some k -> 0 < k ->
      nth_error kld i
      = Some (KL_first ive (INR (lat_dim self)) k
              + KL_second ive (INR (lat_dim self)) k
              + KL_const loggamma (INR (lat_dim self))).
Proof. exact (kld_after_estimate self latent_code batch_sz). Qed.

End Pipeline.

Lemma compute_KLD_after_estimate_param_witness :
  exists ret ks kld,
    estimate_param demo_layer demo_code = Ok ret /\
    rows (tup_kappa ret) = map (fun k => [k]) ks /\
    Forall (fun k => 0 <= k) ks /\
    compute_KLD (fun nu x => nu + x) (fun _ => 0) demo_layer ret 7 = Ok kld /\
    length kld = batch_of demo_code.
Proof.
  destruct (compute_KLD_after_estimate_param (fun nu x => nu + x) (fun _ => 0)
              demo_layer demo_code 7)
    as (ret & ks & kld & H1 & H2 & H3 & H4 & H5 & _).
  - unfold VmfDiff_wf, Linear_wf; simpl. repeat split; repeat constructor.
  - reflexivity.
  - exists ret, ks, kld. auto.
Defined.

Section BuildBowRepProperties.

Variable ive : R -> R -> R.
Variable loggamma : R -> R.

Lemma sample_cell_single (mu norm : Tensor2) (kappa : list R) rng noise
  out rng' :
  sample_cell mu norm kappa rng noise = Ok (out, rng') -> exists s, out = [s].
Proof.
  unfold sample_cell.
  destruct (_sample_weight_batch _ _ _ _) as [[ws rng1]| |]; try discriminate.
  cbn [bind].
  destruct (_sample_ortho_batch _ _ _) as [v| |]; try discriminate.
  cbn [bind]. intros H. injection H as <- _. eauto.
Qed.

Lemma sample_loop_lengths (mu norm : Tensor2) (kappa : list R) (ns : list nat)
  rng noises vecs rng' :
  sample_loop mu norm kappa ns rng noises = Ok (vecs, rng') ->
  length vecs = length ns /\ length (concat vecs) = length ns.
Proof.
  revert rng vecs; induction ns as [|n ns IH]; intros rng vecs H; simpl in H.
  - injection H as <- _. split; reflexivity.
  - destruct (sample_cell mu norm kappa rng (noises n)) as [[smp rng1]| |]
      eqn:Hcell; try discriminate.
    cbn [bind] in H.
    destruct (sample_loop mu norm kappa ns rng1 noises) as [[vs rng2]| |]
      eqn:Hloop; try discriminate.
    cbn [bind] in H. injection H as <- <-.
    destruct (IH _ _ Hloop) as [H1 H2].
    destruct (sample_cell_single _ _ _ _ _ _ _ Hcell) as [s ->].
    simpl. split; congruence.
Qed.

Lemma build_bow_rep_inv (self : VmfDiff) (lat_code : Tensor2) (n_sample : Z)
  rng noises tup kld samples rng' :
  build_bow_rep ive loggamma self lat_code n_sample rng noises
  = Ok (tup, kld, samples, rng') ->
  estimate_param self lat_code = Ok tup /\
  compute_KLD ive loggamma self tup (batch_of lat_code) = Ok kld /\
  ((n_sample = 1%Z /\
    sample_cell (tup_mu tup) (tup_norm tup)
      (map (fun r => hd 0 r) (rows (tup_kappa tup))) rng (noises 0%nat)
    = Ok (samples, rng')) \/
   (n_sample <> 1%Z /\
    exists vecs,
      vecs <> [] /\
      sample_loop (tup_mu tup) (tup_norm tup)
        (map (fun r => hd 0 r) (rows (tup_kappa tup)))
        (seq 0 (Z.to_nat n_sample)) rng noises = Ok (vecs, rng') /\
      samples = concat vecs)).
Proof.
  unfold build_bow_rep. intros H.
  destruct (estimate_param self lat_code) as [tup0| |] eqn:Htup;
    try discriminate.
  cbn [bind] in H.
  destruct (compute_KLD ive loggamma self tup0 (batch_of lat_code))
    as [kld0| |] eqn:Hkld; try discriminate.
  cbn [bind] in H.
  destruct (Z.eqb_spec n_sample 1) as [Hn|Hn].
  - destruct (sample_cell _ _ _ _ _) as [[smp rng1]| |] eqn:Hcell;
      try discriminate.
    cbn [bind] in H. injection H as <- <- <- <-. auto.
  - destruct (sample_loop _ _ _ _ _ _) as [[vecs rng1]| |] eqn:Hloop;
      try discriminate.
    cbn [bind] in H. destruct vecs as [|v0 vecs]; [discriminate|].
    injection H as <- <- <- <-.
    split; [reflexivity|]. split; [exact Hkld|]. right.
    split; [exact Hn|]. exists (v0 :: vecs).
    split; [discriminate|]. split; [exact Hloop | reflexivity].
Qed.

(** X18.  Whenever [build_bow_rep] returns, the sample count was at least 1,
    the sample tensor has exactly [n_sample] entries along its leading
    axis, and the parameters and the KL values it returns are the ones
    [estimate_param] and [compute_KLD] compute for the batch, whatever the
    random draws were. *)
Theorem build_bow_rep_sample_count
  (self : VmfDiff) (lat_code : Tensor2) (n_sample : Z) (rng : list draw)
  (noises : nat -> nat -> nat -> R)
  (tup : ret_dict) (kld : vec) (samples : list Tensor2) (rng' : list draw) :
  build_bow_rep ive loggamma self lat_code n_sample rng noises
  = Ok (tup, kld, samples, rng') ->
  (1 <= n_sample)%Z /\
  length samples = Z.to_nat n_sample /\
  estimate_param self lat_code = Ok tup /\
  compute_KLD ive loggamma self tup (batch_of lat_code) = Ok kld.
Proof.
  intros H. destruct (build_bow_rep_inv _ _ _ _ _ _ _ _ _ H)
    as (Htup & Hkld & [[-> Hcell] | (Hn & vecs & Hne & Hloop & ->)]).
  - destruct (sample_cell_single _ _ _ _ _ _ _ Hcell) as [s ->].
    repeat split; try assumption; lia.
  - destruct (sample_loop_lengths _ _ _ _ _ _ _ _ Hloop) as [Hl1 Hl2].
    rewrite length_seq in Hl1, Hl2.
    assert (Z.to_nat n_sample <> 0%nat).
    { intros H0. rewrite H0 in Hl1. destruct vecs; [congruence|discriminate]. }
    repeat split; try assumption; lia.
Qed.

(** X19.  A sample count below 1 is refused only at the very end: when the
    parameters and the KL values could be computed, [build_bow_rep] ends in
    the RuntimeError of [torch.cat] on an empty list, without a draw from
    the generator. *)
Theorem build_bow_rep_no_samples
  (self : VmfDiff) (lat_code : Tensor2) (n_sample : Z) (rng : list draw)
  (noises : nat -> nat -> nat -> R) (tup : ret_dict) (kld : vec) :
  (n_sample <= 0)%Z ->
  estimate_param self lat_code = Ok tup ->
  compute_KLD ive loggamma self tup (batch_of lat_code) = Ok kld ->
  build_bow_rep ive loggamma self lat_code n_sample rng noises
  = Raise RuntimeError.
Proof.
  intros Hn Htup Hkld. unfold build_bow_rep.
  rewrite Htup. cbn [bind]. rewrite Hkld. cbn [bind].
  destruct (Z.eqb_spec n_sample 1); [lia|].
  replace (Z.to_nat n_sample) with 0%nat by lia. reflexivity.
Qed.

End BuildBowRepProperties.

(** ** End to end: one sample per example *)

Section EndToEnd.

Variable ive : R -> R -> R.
Variable loggamma : R -> R.


Lemma estimate_param_mu (self : VmfDiff) (latent_code proj : Tensor2)
  (ret : ret_dict) :
  Linear_forward (func_mu self) latent_code = Ok proj ->
  estimate_param self latent_code = Ok ret ->
  tup_mu ret = normalize_rows proj.
Proof.
  intros Hproj Hret. unfold estimate_param in Hret.
  destruct (Linear_forward (func_kappa self) latent_code) as [k| |];
    try discriminate.
  cbn [bind] in Hret. rewrite Hproj in Hret. cbn [bind] in Hret.
  now injection Hret as <-.
Qed.

Lemma hd_singletons (ks : list R) :
  map (fun r => hd 0 r) (map (fun k => [k]) ks) = ks.
Proof. rewrite map_map. simpl. apply map_id. Qed.


End EndToEnd.


Section Demo.

Variable ive : R -> R -> R.
Variable loggamma : R -> R.

Lemma demo_layer_wf : VmfDiff_wf demo_layer.
Proof.
  unfold VmfDiff_wf, Linear_wf; simpl. repeat split; repeat constructor.
Qed.

Lemma demo_proj_norm : norm2 [1 * 1 + 0 + 0; 1 * 0 + 0 + 0] = 1.
Proof.
  unfold norm2, tsum; simpl.
  replace ((1 * 1 + 0 + 0) * (1 * 1 + 0 + 0)
           + ((1 * 0 + 0 + 0) * (1 * 0 + 0 + 0) + 0)) with 1 by ring.
  apply sqrt_1.
Qed.


Lemma demo_proj_normalized : normalize_rows demo_proj = demo_mu.
Proof.
  unfold normalize_rows, demo_proj, demo_mu, vadd, dot, tsum; simpl.
  rewrite demo_proj_norm. unfold divs; simpl.
  repeat f_equal; field.
Qed.

(** The run of [build_bow_rep] on the worked example. *)
Lemma demo_build :
  exists tup kld s,
    estimate_param demo_layer demo_code = Ok tup /\
    compute_KLD ive loggamma demo_layer tup (batch_of demo_code) = Ok kld /\
    build_bow_rep ive loggamma demo_layer demo_code 1 demo_rng
      (fun _ => demo_noise) = Ok (tup, kld, [s], []).
Proof.
  destruct (kld_after_estimate ive loggamma demo_layer demo_code
              (batch_of demo_code) demo_layer_wf eq_refl)
    as (ret & ks & kld & Hret & Hks & Hpos & Hkld & Hlen & Hk).
  pose proof (estimate_param_mu demo_layer demo_code demo_proj ret
                eq_refl Hret) as Hmu.
  rewrite demo_proj_normalized in Hmu.
  assert (Hone : exists k, ks = [k] /\ 0 <= k).
  { assert (Hl : length ks = batch_of demo_code).
    { rewrite <- (length_map (fun k => [k]) ks), <- Hks.
      destruct (estimate_param_kappa_nonneg_rows demo_layer demo_code
                  demo_layer_wf eq_refl) as (ret' & Hret' & _ & Hl' & _).
      rewrite Hret in Hret'. now injection Hret' as <-. }
    clear Hlen; rename Hl into Hlen. cbn in Hlen.
    destruct ks as [|k [|k' ks]]; try discriminate.
    exists k. split; [reflexivity | now inversion Hpos]. }
  destruct Hone as (k & -> & Hkpos).
  assert (Hws : _sample_weight_batch [k] (Z.of_nat (ncols demo_mu))
                  (batch_of demo_mu) demo_rng
                = Ok ([candidate (wood_b k (IZR (2 - 1))) (1 / 2)], [])).
  { unfold _sample_weight_batch, demo_rng.
    cbn [batch_of demo_mu rows length seq weight_loop nth_error ncols].
    change (Z.of_nat 2) with 2%Z.
    rewrite sample_weight_half_returns by (lra || lia). reflexivity. }
  destruct (sample_cell_rows demo_mu (tup_norm ret) [k] demo_rng demo_noise
              _ [] demo_v demo_mu_wf Hws demo_ortho) as (s & Hcell & _).
  exists ret, kld, s. split; [exact Hret|]. split; [exact Hkld|].
  unfold build_bow_rep. rewrite Hret. cbn [bind]. rewrite Hkld. cbn [bind].
  cbn [Z.eqb Pos.eqb]. rewrite Hmu, Hks, hd_singletons, Hcell. reflexivity.
Qed.

End Demo.


Lemma build_bow_rep_sample_count_witness :
  exists tup kld s,
    build_bow_rep (fun nu x => nu + x) (fun _ => 0) demo_layer demo_code 1
      demo_rng (fun _ => demo_noise) = Ok (tup, kld, [s], []) /\
    (1 <= 1)%Z /\ length [s] = Z.to_nat 1.
Proof.
  destruct (demo_build (fun nu x => nu + x) (fun _ => 0))
    as (tup & kld & s & _ & _ & Hb).
  exists tup, kld, s. split; [exact Hb|].
  destruct (build_bow_rep_sample_count (fun nu x => nu + x) (fun _ => 0)
              demo_layer demo_code 1 demo_rng (fun _ => demo_noise)
              tup kld [s] [] Hb) as (H1 & H2 & _).
  split; assumption.
Defined.

Lemma build_bow_rep_no_samples_witness :
  build_bow_rep (fun nu x => nu + x) (fun _ => 0) demo_layer demo_code 0
    demo_rng (fun _ => demo_noise) = Raise RuntimeError.
Proof.
  destruct (demo_build (fun nu x => nu + x) (fun _ => 0))
    as (tup & kld & s & Htup & Hkld & _).
  apply (build_bow_rep_no_samples (fun nu x => nu + x) (fun _ => 0)
           demo_layer demo_code 0 demo_rng (fun _ => demo_noise) tup kld).
  - lia.
  - exact Htup.
  - exact Hkld.
Defined.

(** ** What the samplers do not do *)

Section SamplerFailures.



Lemma weight_loop_raises (kappa : list R) (dim : Z) (bs : list nat)
  (rng : list draw) (e : exn) :
  (2 <= dim)%Z ->
  weight_loop kappa dim bs rng = Raise e ->
  e = IndexError /\ exists b, In b bs /\ (length kappa <= b)%nat.
Proof.
  intros Hdim. revert rng; induction bs as [|b bs IH]; intros rng H;
    simpl in H; [discriminate|].
  destruct (nth_error kappa b) as [k|] eqn:Hk.
  - destruct (_sample_weight k dim rng) as [[w rng1]| e'|] eqn:Hw;
      cbn [bind] in H; try discriminate.
    + destruct (weight_loop kappa dim bs rng1) as [[ws rng2]| e'|] eqn:Hl;
        cbn [bind] in H; try discriminate.
      injection H as ->.
      destruct (IH _ Hl) as (He & b' & Hin & Hb).
      split; [exact He|]. exists b'. split; [now right | exact Hb].
    + exfalso. rewrite _sample_weight_unfold in Hw.
      pose proof (IZR_pred_ge_1 _ Hdim).
      eapply rejection_loop_never_raises; [|exact Hw]. lra.
  - injection H as <-. split; [reflexivity|].
    exists b. split; [now left | now apply nth_error_None].
Qed.

(** X22.  On a latent space of at least two coordinates the only exception
    [sample_cell] can end in is the IndexError of a concentration array
    that is shorter than the batch. *)
Theorem sample_cell_only_index_error
  (mu norm : Tensor2) (kappa : list R) (rng : list draw)
  (noise : nat -> nat -> R) (e : exn) :
  (2 <= ncols mu)%nat ->
  sample_cell mu norm kappa rng noise = Raise e ->
  e = IndexError /\ (length kappa < batch_of mu)%nat.
Proof.
  intros Hdim H. unfold sample_cell, _sample_weight_batch in H.
  destruct (weight_loop kappa (Z.of_nat (ncols mu)) (seq 0 (batch_of mu)) rng)
    as [[ws rng1]| e'|] eqn:Hl; cbn [bind] in H; try discriminate.
  - destruct (sample_ortho_batch_ok (normalize_rows mu) (ncols mu) noise
                eq_refl) as [y Hy].
    rewrite Hy in H. discriminate.
  - injection H as ->.
    assert (Hz : (2 <= Z.of_nat (ncols mu))%Z) by lia.
    destruct (weight_loop_raises _ _ _ _ _ Hz Hl) as (He & b & Hin & Hb).
    split; [exact He|]. apply in_seq in Hin. lia.
Qed.

Lemma sample_cell_only_index_error_witness :
  sample_cell demo_mu (ones 1 2) [] demo_rng demo_noise = Raise IndexError /\
  (length (@nil R) < batch_of demo_mu)%nat.
Proof.
  split; [reflexivity|].
  apply (sample_cell_only_index_error demo_mu (ones 1 2) [] demo_rng
           demo_noise IndexError).
  - simpl. lia.
  - reflexivity.
Defined.

End SamplerFailures.
